(** * Content supply: dispatch, authorization and per-transfer stores

    A shallow embedding of the [supply] package: the region table
    (supply/regions.go) and the dispatch controller, request network,
    inbound handler and pull validator (supply.go).

    Identifiers are modelled as the code has them: [cid.Cid] and [peer.ID]
    are Go strings, [uint64] values are [Z] with their range written out,
    Go maps are [gmap]s, [peer.Set] is a [gset].  Calls into external
    collaborators (peer host, key-value store, bulk transport) are
    recorded in an effect log and their outcomes are read from an
    environment record, so that every theorem holds for every behaviour
    of those collaborators. *)

From Stdlib Require Import ZArith Ascii String.
From stdpp Require Import gmap strings list pretty.

Local Open Scope string_scope.
Local Open Scope list_scope.
Local Open Scope Z_scope.

#[local] Set Warnings "-clear-no-such-hyp".

(** ** Basic identifiers *)

(** [cid.Cid] wraps a string, and [==] on it is string equality. *)
Definition Cid := string.
(** [peer.ID] is a string type. *)
Definition PeerID := string.

Definition MaxUint64 : Z := 18446744073709551615.

(** ** supply/regions.go *)

Module Regions.

(** [type RegionCode uint64] with the [iota] constants. *)
Definition RegionCode := Z.
Definition GlobalRegion : RegionCode := 0.
Definition AsiaRegion : RegionCode := 1.
Definition AfricaRegion : RegionCode := 2.
Definition SouthAmericaRegion : RegionCode := 3.
Definition NorthAmericaRegion : RegionCode := 4.
Definition EuropeRegion : RegionCode := 5.
Definition OceaniaRegion : RegionCode := 6.
Definition CustomRegion : RegionCode := MaxUint64.

Record Region := {
  Name : string;
  Code : RegionCode;
  PPB : Z;
  StorageMiners : list string;
}.

Definition asia : Region := {|
  Name := "Asia"; Code := AsiaRegion; PPB := 1;
  StorageMiners :=
    [ "f0159961"; "f0242152"; "f0225676"; "f0165539"; "f0216138"; "f01272" ]
|}.

Definition africa : Region := {|
  Name := "Africa"; Code := AfricaRegion; PPB := 1; StorageMiners := []
|}.

Definition southAmerica : Region := {|
  Name := "SouthAmerica"; Code := SouthAmericaRegion; PPB := 1;
  StorageMiners := []
|}.

Definition northAmerica : Region := {|
  Name := "NorthAmerica"; Code := NorthAmericaRegion; PPB := 1;
  StorageMiners :=
    [ "f02301"; "f03223"; "f019104"; "f02401"; "f02387"; "f09848";
      "f08399"; "f010088"; "f064218"; "f02540"; "f015927"; "f0135078";
      "f019104"; "f047419"; "f01278"; "f010617"; "f01247"; "f022142";
      "f019279" ]
|}.

Definition europe : Region := {|
  Name := "Europe"; Code := EuropeRegion; PPB := 1;
  StorageMiners :=
    [ "f01240"; "f01234"; "f022352"; "f099608"; "f02576"; "f023467";
      "f03624"; "f062353"; "f081323"; "f08403"; "f010446"; "f01277";
      "f022163" ]
|}.

Definition oceania : Region := {|
  Name := "Oceania"; Code := OceaniaRegion; PPB := 1;
  StorageMiners := [ "f014365" ]
|}.

(** [append(northAmerica.StorageMiners,
            append(europe.StorageMiners, oceania.StorageMiners...)...)] *)
Definition global : Region := {|
  Name := "Global"; Code := GlobalRegion; PPB := 0;
  StorageMiners :=
    StorageMiners northAmerica
      ++ (StorageMiners europe ++ StorageMiners oceania)
|}.

(** [var Regions = map[string]Region{...}] *)
Definition Regions : gmap string Region :=
  <["Global" := global]> (
  <["Asia" := asia]> (
  <["Africa" := africa]> (
  <["SouthAmerica" := southAmerica]> (
  <["NorthAmerica" := northAmerica]> (
  <["Europe" := europe]> (
  <["Oceania" := oceania]> ∅)))))).

(** Indexing a Go map at an absent key yields the zero [Region], whose
    [Name] is empty; [ParseRegions] tests exactly that. *)
Definition zeroRegion : Region :=
  {| Name := ""; Code := 0; PPB := 0; StorageMiners := [] |}.

Definition ParseRegions (names : list string) : list Region :=
  (λ rstring,
     let r := default zeroRegion (Regions !! rstring) in
     if bool_decide (Name r ≠ "") then r
     else {| Name := rstring; Code := CustomRegion; PPB := 0;
             StorageMiners := [] |}) <$> names.

(** The preset regions other than "Global", in the order of the
    [Regions] literal. *)
Definition otherPresets : list Region :=
  [ asia; africa; southAmerica; northAmerica; europe; oceania ].

End Regions.

(** ** Errors and values shared by the supply package *)

(** What [strconv] attaches to a [*NumError]. *)
Inductive NumErrKind := ErrSyntax | ErrRange.

Global Instance NumErrKind_eq_dec : EqDecision NumErrKind.
Proof. solve_decision. Defined.

Inductive error :=
  | Errorf (msg : string)
      (** [fmt.Errorf(msg)] *)
  | NumError (func num : string) (kind : NumErrKind)
      (** [&strconv.NumError{Func, Num, Err}] *)
  | ErrNotFound
      (** the Content Index has no record under the key *)
  | ErrExternal (msg : string)
      (** a failure reported by an external collaborator *).

Global Instance error_eq_dec : EqDecision error.
Proof. solve_decision. Defined.

(** [var ErrNoPeers = fmt.Errorf("no peers available for supply")] *)
Definition ErrNoPeers : error := Errorf "no peers available for supply".

(** [const MaxReceiverCount = 7] *)
Definition MaxReceiverCount : nat := 7.

(** [const RequestProtocol = "/myel/supply/dispatch/1.0"] *)
Definition RequestProtocol : string := "/myel/supply/dispatch/1.0".

(** [fmt.Sprintf("%s/%s", proto, r.Name)] for every region, in order. *)
Definition protoRegions (proto : string) (regions : list Regions.Region)
  : list string :=
  (λ r, proto +:+ "/" +:+ Regions.Name r) <$> regions.

Record Request := {
  PayloadCID : Cid;
  Size : Z;
}.

Global Instance Request_eq_dec : EqDecision Request.
Proof. solve_decision. Defined.

(** [func (Request) Type() datatransfer.TypeIdentifier] *)
Definition Request_Type (_ : Request) : string := "DispatchRequestVoucher".

Record PRecord := {
  Provider : PeerID;
  PRecord_PayloadCID : Cid;
}.

Global Instance PRecord_eq_dec : EqDecision PRecord.
Proof. solve_decision. Defined.

(** [Response]: the channel and the subscription are named by the
    identifiers the runtime gave them. *)
Record Response := {
  recordChan : nat;
  unsub : nat;
  Count : Z;
}.

(** ** The selector built by [AllSelector] *)

Inductive RecursionLimit :=
  | RecursionLimitNone
  | RecursionLimitDepth (depth : Z).

Inductive Selector :=
  | ExploreRecursive (limit : RecursionLimit) (sequence : Selector)
  | ExploreAll (next : Selector)
  | ExploreRecursiveEdge
  | Matcher.

Definition AllSelector : Selector :=
  ExploreRecursive RecursionLimitNone (ExploreAll ExploreRecursiveEdge).

(** ** Bulk-transport events (go-data-transfer) *)

Module datatransfer.

Inductive EventCode :=
  | Open | Accept | Restart | DataReceived | DataSent | Cancel | Error
  | CleanupComplete | NewVoucher | NewVoucherResult | PauseInitiator
  | ResumeInitiator | PauseResponder | ResumeResponder | FinishTransfer
  | ResponderCompletes | ResponderBeginsFinalization | BeginFinalizing
  | Disconnected | Complete.

Inductive Status :=
  | Requested | Ongoing | TransferFinished | ResponderCompleted | Finalizing
  | Completing | Completed | Failing | Failed | Cancelling | Cancelled
  | InitiatorPaused | ResponderPaused | BothPaused | ResponderFinalizing
  | ResponderFinalizingTransferFinished | ChannelNotFoundError.

Global Instance EventCode_eq_dec : EqDecision EventCode.
Proof. solve_decision. Defined.
Global Instance Status_eq_dec : EqDecision Status.
Proof. solve_decision. Defined.

Record Event := { Code : EventCode; Message : string }.

(** The accessors of [ChannelState] the package reads. *)
Record ChannelState := {
  Status_ : Status;
  BaseCID : Cid;
  Sender : PeerID;
  Recipient : PeerID;
}.

End datatransfer.

(** ** Content records *)

(** Modelled from the spec: the label keys [KStoreID] and [KSize] are
    declared in the store file, which is not among the sources; the spec
    names the two recognised labels [storeId] and [size]. *)
Definition KStoreID : string := "storeId".
Definition KSize : string := "size".

Record ContentRecord := {
  Labels : gmap string string;
}.

(** ** [fmt.Sprintf("%d", n)] and [strconv.ParseUint(s, 10, 64)] *)

Definition Sprintf_d (n : Z) : string := pretty n.

Definition syntaxError (fn str : string) : error := NumError fn str ErrSyntax.
Definition rangeError (fn str : string) : error := NumError fn str ErrRange.

Definition byte (c : ascii) : Z := Z.of_N (N_of_ascii c).

(** [lower(c)] of strconv: [c | ('x' - 'X')]. *)
Definition lower (c : Z) : Z := Z.lor c 32.

(** The smallest number such that [cutoff * 10 > maxUint64]. *)
Definition cutoff : Z := MaxUint64 / 10 + 1.

(** The digit loop of [ParseUint] for base 10 and bit size 64; [n] is the
    accumulated [uint64], whose multiplication and addition wrap. *)
Fixpoint parseUintLoop (s0 : string) (s : string) (n : Z) : Z * option error :=
  match s with
  | EmptyString => (n, None)
  | String ch rest =>
      let c := byte ch in
      let d :=
        if (48 <=? c) && (c <=? 57) then Some (c - 48)
        else if (97 <=? lower c) && (lower c <=? 122)
             then Some (lower c - 97 + 10)
        else None in
      match d with
      | None => (0, Some (syntaxError "ParseUint" s0))
      | Some d =>
          if 10 <=? d then (0, Some (syntaxError "ParseUint" s0))
          else if cutoff <=? n then
            (MaxUint64, Some (rangeError "ParseUint" s0))
          else
            let n := (n * 10) mod 2 ^ 64 in
            let n1 := (n + d) mod 2 ^ 64 in
            if (n1 <? n) || (MaxUint64 <? n1) then
              (MaxUint64, Some (rangeError "ParseUint" s0))
            else parseUintLoop s0 rest n1
      end
  end.

Definition ParseUint (s : string) : Z * option error :=
  if bool_decide (s = "") then (0, Some (syntaxError "ParseUint" s))
  else parseUintLoop s s 0.

(** The value of a string of decimal digits read after the prefix [n]. *)
Definition isDigit (ch : ascii) : bool :=
  (48 <=? byte ch) && (byte ch <=? 57).

Fixpoint decimalValue (s : string) (n : Z) : Z :=
  match s with
  | EmptyString => n
  | String ch rest => decimalValue rest (n * 10 + (byte ch - 48))
  end.

Fixpoint allDigits (s : string) : bool :=
  match s with
  | EmptyString => true
  | String ch rest => isDigit ch && allDigits rest
  end.

(** ** External collaborators and the effect log

    Every call that leaves the package is appended to a log.  Whether
    such a call fails is not decided by the package: the outcome is read
    from the collaborator's record, as a function of the log so far, so
    that the same peer may fail once and succeed later. *)

Inductive Effect :=
  | EAuthorize (k : Cid) (p : PeerID)
  | ENewStream (dest : PeerID) (protocols : list string) (err : option error)
  | EWriteRequest (dest : PeerID) (m : Request) (err : option error)
  | EReadRequest (from : PeerID)
  | EStreamClose (p : PeerID)
  | EStreamReset (p : PeerID)
  | ENext (id : Z)
  | EPutRecord (k : Cid) (rec : ContentRecord) (err : option error)
  | ERemoveRecord (k : Cid)
  | EOpenPullDataChannel (to : PeerID) (voucher : Request) (baseCid : Cid)
                         (sel : Selector) (err : option error)
  | ERegisterVoucherType (ty : string)
  | ERegisterTransportConfigurer (ty : string)
  | ESetStreamHandler (proto : string)
  | ESubscribe (id : nat)
  | ESend (ch : nat) (rec : PRecord).

(** [mux.MuxedStream]: what decoding the bytes written by the remote side
    yields, and whether a write of ours goes through. *)
Record MuxedStream := {
  Incoming : Request + error;
  WriteCborRPC : list Effect → Request → option error;
}.


(** [network.Conn] *)
Record Conn := {
  RemotePeer : PeerID;
}.

(** [host.Host]: identity, the current connections in the order
    [Network().Conns()] lists them (one entry per connection),
    [Peerstore().SupportsProtocols] and [NewStream]. *)
Record Host := {
  ID : PeerID;
  Conns : list Conn;
  SupportsProtocols : PeerID → list string → list string * option error;
  NewStream : list Effect → PeerID → list string → MuxedStream + error;
}.

(** [datatransfer.Manager]: the outcome of [OpenPullDataChannel]. *)
Record Manager := {
  OpenPullDataChannelErr :
    list Effect → PeerID → Request → Cid → Selector → option error;
}.

(** Modelled from the spec: the [Store] type (the Content Index) lives in
    a file that is not among the sources.  The spec gives it [put]
    (idempotent overwrite), [get] (record or not-found) and [remove]
    (succeeds whether or not the record existed) over a namespaced
    key-value store; the inbound handler checks the error of [put], so a
    write may be refused by the underlying store. *)
Record Store := {
  PutErr : list Effect → Cid → option error;
}.

Record requestStream := {
  requestStream_p : PeerID;
  requestStream_rw : MuxedStream;
}.

Record handler := {
  handler_dt : Manager;
  handler_s : Store;
}.

(** The two closures the package passes to [SubscribeToEvents]: the one
    [New] installs (it captures the host and the store) and the one
    [Dispatch] installs (it captures the request and the response). *)
Inductive Subscriber :=
  | CleanupSubscriber (h : Host) (store : Store)
  | DispatchSubscriber (r : Request) (recordChan : nat).

(** The mutable state of one node. *)
Record World := {
  log : list Effect;
  (** [Validator.auth] *)
  auth : gmap Cid (gset PeerID);
  (** the records of the Content Index *)
  index : gmap Cid ContentRecord;
  (** the counter of the multi-store *)
  nextID : Z;
  (** the event subscriptions of the bulk transport, oldest first *)
  subs : list (nat * Subscriber);
  nextSub : nat;
  (** the number of channels made so far *)
  nextChan : nat;
  (** [Network.receiver] *)
  receiver : option handler;
}.

Definition emptyWorld : World :=
  {| log := []; auth := ∅; index := ∅; nextID := 0; subs := [];
     nextSub := 0%nat; nextChan := 0%nat; receiver := None |}.

Definition set_log (f : list Effect → list Effect) (w : World) : World :=
  {| log := f (log w); auth := auth w; index := index w; nextID := nextID w;
     subs := subs w; nextSub := nextSub w; nextChan := nextChan w;
     receiver := receiver w |}.

Definition set_auth (f : gmap Cid (gset PeerID) → gmap Cid (gset PeerID))
    (w : World) : World :=
  {| log := log w; auth := f (auth w); index := index w; nextID := nextID w;
     subs := subs w; nextSub := nextSub w; nextChan := nextChan w;
     receiver := receiver w |}.

Definition set_index (f : gmap Cid ContentRecord → gmap Cid ContentRecord)
    (w : World) : World :=
  {| log := log w; auth := auth w; index := f (index w); nextID := nextID w;
     subs := subs w; nextSub := nextSub w; nextChan := nextChan w;
     receiver := receiver w |}.

Definition set_nextID (n : Z) (w : World) : World :=
  {| log := log w; auth := auth w; index := index w; nextID := n;
     subs := subs w; nextSub := nextSub w; nextChan := nextChan w;
     receiver := receiver w |}.

Definition set_subs (f : list (nat * Subscriber) → list (nat * Subscriber))
    (w : World) : World :=
  {| log := log w; auth := auth w; index := index w; nextID := nextID w;
     subs := f (subs w); nextSub := nextSub w; nextChan := nextChan w;
     receiver := receiver w |}.

Definition set_nextSub (n : nat) (w : World) : World :=
  {| log := log w; auth := auth w; index := index w; nextID := nextID w;
     subs := subs w; nextSub := n; nextChan := nextChan w;
     receiver := receiver w |}.

Definition set_nextChan (n : nat) (w : World) : World :=
  {| log := log w; auth := auth w; index := index w; nextID := nextID w;
     subs := subs w; nextSub := nextSub w; nextChan := n;
     receiver := receiver w |}.

Definition set_receiver (r : option handler) (w : World) : World :=
  {| log := log w; auth := auth w; index := index w; nextID := nextID w;
     subs := subs w; nextSub := nextSub w; nextChan := nextChan w;
     receiver := r |}.

(** ** The state monad of the package's procedures *)

Definition M (A : Type) : Type := World → A * World.

Global Instance M_ret : MRet M := λ A a w, (a, w).

Global Instance M_bind : MBind M :=
  λ A B k m w, let '(a, w') := m w in k a w'.

Definition emit (e : Effect) : M unit :=
  λ w, (tt, set_log (λ l, l ++ [e]) w).

(** [for _, x := range l { body }] *)
Fixpoint forEach {A} (l : list A) (body : A → M unit) : M unit :=
  match l with
  | [] => mret tt
  | x :: l' => body x ;; forEach l' body
  end.

(** The final state and the result of a run. *)
Definition exec {A} (m : M A) (w : World) : World := snd (m w).
Definition eval {A} (m : M A) (w : World) : A := fst (m w).

(** The effects a run appended to the log. *)
Definition effects {A} (m : M A) (w : World) : list Effect :=
  drop (length (log w)) (log (exec m w)).

(** ** Validator *)

Module Validator.

(** [datatransfer.Voucher]: a [*Request] or a voucher of another type. *)
Inductive Voucher :=
  | VoucherRequest (r : Request)
  | VoucherOther (ty : string).

(** [Authorize] on the table: [set.Add(p)] on the set stored under [k], or
    a new set holding [p] stored under [k]. *)
Definition Authorize (k : Cid) (p : PeerID) (auth : gmap Cid (gset PeerID))
  : gmap Cid (gset PeerID) :=
  match auth !! k with
  | Some set => <[k := set ∪ {[p]}]> auth
  | None => <[k := (∅ : gset PeerID) ∪ {[p]}]> auth
  end.

(** Both validations return a nil [VoucherResult]; only the error is
    kept. *)
Definition ValidatePush (sender : PeerID) (voucher : Voucher) (baseCid : Cid)
    (selector : Selector) (auth : gmap Cid (gset PeerID)) : option error :=
  Some (Errorf "no pushed accepted").

Definition ValidatePull (receiver : PeerID) (voucher : Voucher) (baseCid : Cid)
    (selector : Selector) (auth : gmap Cid (gset PeerID)) : option error :=
  match auth !! baseCid with
  | None => Some (Errorf "unknown CID")
  | Some set =>
      if bool_decide (receiver ∈ set) then None
      else Some (Errorf "not authorized")
  end.

End Validator.

(** [s.validation.Authorize(k, p)] on the node's table. *)
Definition Authorize (k : Cid) (p : PeerID) : M unit :=
  λ w, (tt, set_log (λ l, l ++ [EAuthorize k p])
              (set_auth (Validator.Authorize k p) w)).

Definition ValidatePull (receiver : PeerID) (voucher : Validator.Voucher)
    (baseCid : Cid) (selector : Selector) : M (option error) :=
  λ w, (Validator.ValidatePull receiver voucher baseCid selector (auth w), w).

(** ** Content Index *)

(** Modelled from the spec: [put(cid, record)], an idempotent overwrite,
    unless the underlying store refuses the write. *)
Definition PutRecord (s : Store) (k : Cid) (rec : ContentRecord)
  : M (option error) :=
  λ w,
    match PutErr s (log w) k with
    | Some e => (Some e, set_log (λ l, l ++ [EPutRecord k rec (Some e)]) w)
    | None =>
        (None, set_log (λ l, l ++ [EPutRecord k rec None])
                 (set_index (λ m, <[k := rec]> m) w))
    end.

(** Modelled from the spec: [get(cid) -> record | not-found]. *)
Definition GetRecord (s : Store) (k : Cid) : M (ContentRecord + error) :=
  λ w,
    match index w !! k with
    | Some rec => (inl rec, w)
    | None => (inr ErrNotFound, w)
    end.

(** Modelled from the spec: [remove(cid)] succeeds whether or not the
    record existed. *)
Definition RemoveRecord (s : Store) (k : Cid) : M (option error) :=
  λ w, (None, set_log (λ l, l ++ [ERemoveRecord k])
                (set_index (λ m, delete k m) w)).

(** ** Multi-store *)

(** [ms.Next()] of go-multistore: the counter is incremented and
    returned. *)
Definition Next : M Z :=
  λ w, let id := (nextID w + 1) mod 2 ^ 64 in
       (id, set_log (λ l, l ++ [ENext id]) (set_nextID id w)).

(** ** Bulk transport *)

Definition SubscribeToEvents (sub : Subscriber) : M nat :=
  λ w, let id := nextSub w in
       (id, set_log (λ l, l ++ [ESubscribe id])
              (set_nextSub (S id) (set_subs (λ l, l ++ [(id, sub)]) w))).

Definition OpenPullDataChannel (dt : Manager) (to : PeerID) (voucher : Request)
    (baseCid : Cid) (sel : Selector) : M (option error) :=
  λ w, let err := OpenPullDataChannelErr dt (log w) to voucher baseCid sel in
       (err, set_log
               (λ l, l ++ [EOpenPullDataChannel to voucher baseCid sel err]) w).

(** [make(chan PRecord)] and [ch <- rec]. *)
Definition makeChan : M nat :=
  λ w, (nextChan w, set_nextChan (S (nextChan w)) w).

Definition send (ch : nat) (rec : PRecord) : M unit := emit (ESend ch rec).

(** ** Network *)

(** [Network]; its [receiver] field is the [receiver] of the world. *)
Record Network := {
  host : Host;
  protocols : list string;
}.

Definition NewNetwork (h : Host) (regions : list Regions.Region) : Network :=
  {| host := h; protocols := protoRegions RequestProtocol regions |}.

Definition NewRequestStream (n : Network) (dest : PeerID)
  : M (requestStream + error) :=
  λ w,
    match NewStream (host n) (log w) dest (protocols n) with
    | inr err =>
        (inr err,
         set_log (λ l, l ++ [ENewStream dest (protocols n) (Some err)]) w)
    | inl s =>
        (inl {| requestStream_p := dest; requestStream_rw := s |},
         set_log (λ l, l ++ [ENewStream dest (protocols n) None]) w)
    end.

Definition ReadRequest (a : requestStream) : M (Request * option error) :=
  emit (EReadRequest (requestStream_p a)) ;;
  match Incoming (requestStream_rw a) with
  | inr err => mret ({| PayloadCID := ""; Size := 0 |}, Some err)
  | inl m => mret (m, None)
  end.

Definition WriteRequest (a : requestStream) (m : Request) : M (option error) :=
  λ w, let err := WriteCborRPC (requestStream_rw a) (log w) m in
       (err, set_log (λ l, l ++ [EWriteRequest (requestStream_p a) m err]) w).

Definition Close (s : requestStream) : M unit := emit (EStreamClose (requestStream_p s)).

Definition OtherPeer (s : requestStream) : PeerID := requestStream_p s.

(** ** Inbound handler *)

(** [defer f()] around a body: the call runs when the body returns. *)
Definition defer {A} (deferred : M unit) (body : M A) : M A :=
  a ← body; deferred;; mret a.

Definition HandleRequest (h : handler) (stream : requestStream) : M unit :=
  defer (Close stream) (
    '(req, err) ← ReadRequest stream;
    match err with
    | Some _ => mret tt
    | None =>
        storeID ← Next;
        err ← PutRecord (handler_s h) (PayloadCID req)
                {| Labels := <[KStoreID := Sprintf_d storeID]>
                               (<[KSize := Sprintf_d (Size req)]> ∅) |};
        match err with
        | Some _ => mret tt
        | None =>
            err ← OpenPullDataChannel (handler_dt h) (OtherPeer stream) req
                    (PayloadCID req) AllSelector;
            match err with
            | Some _ => mret tt
            | None => mret tt
            end
        end
    end).

Definition SetDelegate (n : Network) (sr : handler) : M unit :=
  (λ w, (tt, set_receiver (Some sr) w)) ;;
  forEach (protocols n) (λ proto, emit (ESetStreamHandler proto)).


(** ** Supply *)

(** [Supply]; the multi-store counter and the validator's table are in
    the world. *)
Record Supply := {
  h : Host;
  dt : Manager;
  net : Network;
  store : Store;
  regions : list Regions.Region;
}.

(** The body of the closure [New] subscribes. *)
Definition cleanupOnError (h : Host) (store : Store)
    (event : datatransfer.Event) (channelState : datatransfer.ChannelState)
  : M unit :=
  if bool_decide (datatransfer.Code event = datatransfer.Error)
     && bool_decide (datatransfer.Recipient channelState = ID h)
  then RemoveRecord store (datatransfer.BaseCID channelState) ;; mret tt
  else mret tt.

(** The body of the closure [Dispatch] subscribes. *)
Definition recordCompletion (r : Request) (recordChan : nat)
    (event : datatransfer.Event) (chState : datatransfer.ChannelState)
  : M unit :=
  if bool_decide (datatransfer.Status_ chState = datatransfer.Completed) then
    let root := datatransfer.BaseCID chState in
    if bool_decide (root ≠ PayloadCID r) then mret tt
    else
      let rec := datatransfer.Recipient chState in
      send recordChan {| Provider := rec; PRecord_PayloadCID := root |}
  else mret tt.

Definition runSubscriber (sub : Subscriber)
    (event : datatransfer.Event) (channelState : datatransfer.ChannelState)
  : M unit :=
  match sub with
  | CleanupSubscriber h store => cleanupOnError h store event channelState
  | DispatchSubscriber r recordChan =>
      recordCompletion r recordChan event channelState
  end.

(** The bulk transport publishes an event: every subscriber is called,
    oldest first. *)
Definition publish (event : datatransfer.Event)
    (channelState : datatransfer.ChannelState) : M unit :=
  λ w, forEach (subs w)
         (λ s, runSubscriber s.2 event channelState) w.

Definition New (h : Host) (dt : Manager) (ds : Store)
    (regions : list Regions.Region) : M Supply :=
  let store := ds in
  (λ w, (tt, set_auth (λ _, ∅) w)) ;;
  let s := {| h := h; dt := dt; net := NewNetwork h regions;
              store := store; regions := regions |} in
  emit (ERegisterVoucherType (Request_Type {| PayloadCID := ""; Size := 0 |})) ;;
  emit (ERegisterTransportConfigurer
          (Request_Type {| PayloadCID := ""; Size := 0 |})) ;;
  SetDelegate (net s) {| handler_dt := dt; handler_s := store |} ;;
  SubscribeToEvents (CleanupSubscriber h store) ;;
  mret s.

Definition Register (s : Supply) (key : Cid) (sid : Z) : M (option error) :=
  PutRecord (store s) key {| Labels := <[KStoreID := Sprintf_d sid]> ∅ |}.

(** The loop of [selectProviders] over the connections: [peers] is the
    slice built so far. *)
Definition selectStep (s : Supply) (peers : list PeerID) (pconn : Conn)
  : list PeerID :=
  let pid := RemotePeer pconn in
  if bool_decide (pid ≠ ID (h s)) then
    let protos := protoRegions RequestProtocol (regions s) in
    let '(supported, err) := SupportsProtocols (h s) pid protos in
    if bool_decide (err ≠ None) || bool_decide (length supported = 0%nat)
    then peers
    else peers ++ [pid]
  else peers.

Definition selectProviders (s : Supply) : list PeerID * option error :=
  let peers := foldl (selectStep s) [] (Conns (h s)) in
  if bool_decide (length peers = 0%nat) then ([], Some ErrNoPeers)
  else
    let peers :=
      if bool_decide (MaxReceiverCount < length peers)%nat
      then take MaxReceiverCount peers
      else peers in
    (peers, None).

Definition sendAllRequests (s : Supply) (r : Request) (peers : list PeerID)
  : M unit :=
  forEach peers (λ p,
    res ← NewRequestStream (net s) p;
    match res with
    | inr _ => mret tt
    | inl stream =>
        err ← WriteRequest stream r;
        Close stream ;;
        match err with
        | Some _ => mret tt
        | None => mret tt
        end
    end).

Definition Dispatch (s : Supply) (r : Request) : M (Response * option error) :=
  ch ← makeChan;
  id ← SubscribeToEvents (DispatchSubscriber r ch);
  let res := {| recordChan := ch; unsub := id; Count := 0 |} in
  let '(providers, err) := selectProviders s in
  match err with
  | Some e => mret (res, Some e)
  | None =>
      forEach providers (λ p, Authorize (PayloadCID r) p) ;;
      let res := {| recordChan := recordChan res; unsub := unsub res;
                    Count := Z.of_nat (length providers) |} in
      sendAllRequests s r providers ;;
      mret (res, None)
  end.

Definition GetStoreID (s : Supply) (id : Cid) : M (Z * option error) :=
  res ← GetRecord (store s) id;
  match res with
  | inr err => mret (0, Some err)
  | inl rec =>
      match Labels rec !! KStoreID with
      | None => mret (0, Some (Errorf "storeID not found"))
      | Some sid =>
          let '(storeID, err) := ParseUint sid in
          match err with
          | Some e => mret (0, Some e)
          | None => mret (storeID, None)
          end
      end
  end.

(** ** Vocabulary of the properties *)

(** The table after a run of [Authorize] calls, oldest first. *)
Definition authorizeAll (ops : list (Cid * PeerID))
    (auth : gmap Cid (gset PeerID)) : gmap Cid (gset PeerID) :=
  foldl (λ a op, Validator.Authorize op.1 op.2 a) auth ops.

(** A connected peer qualifies as a receiver when it is not the node
    itself and the peer store reports, without error, at least one of
    the node's protocol identifiers as supported. *)
Definition eligible (s : Supply) (pid : PeerID) : bool :=
  bool_decide (pid ≠ ID (h s))
  && match SupportsProtocols (h s) pid
             (protoRegions RequestProtocol (regions s)) with
     | (supported, None) => bool_decide (supported ≠ [])
     | (_, Some _) => false
     end.

(** The eligible peers, one entry per connection, in connection order. *)
Definition eligiblePeers (s : Supply) : list PeerID :=
  filter (λ pid, eligible s pid) (RemotePeer <$> Conns (h s)).

(** Readings of an effect list. *)
Definition authWrites (effs : list Effect) : list (Cid * PeerID) :=
  omap (λ e, match e with EAuthorize k p => Some (k, p) | _ => None end) effs.

(** Every attempt to open a request stream, by destination. *)
Definition streamRequests (effs : list Effect) : list PeerID :=
  omap (λ e, match e with ENewStream d _ _ => Some d | _ => None end) effs.

(** The request streams that were opened. *)
Definition streamsOpened (effs : list Effect) : list PeerID :=
  omap (λ e, match e with ENewStream d _ None => Some d | _ => None end) effs.

(** Every attempt to write a request, and the ones that went through. *)
Definition writeAttempts (effs : list Effect) : list (PeerID * Request) :=
  omap (λ e, match e with EWriteRequest d m _ => Some (d, m) | _ => None end)
       effs.

Definition requestsWritten (effs : list Effect) : list (PeerID * Request) :=
  omap (λ e, match e with EWriteRequest d m None => Some (d, m) | _ => None end)
       effs.

Definition streamsClosed (effs : list Effect) : list PeerID :=
  omap (λ e, match e with EStreamClose d => Some d | _ => None end) effs.

(** The records sent on channel [ch]. *)
Definition recordsSent (ch : nat) (effs : list Effect) : list PRecord :=
  omap (λ e, match e with
             | ESend ch' rec => if bool_decide (ch' = ch) then Some rec else None
             | _ => None
             end) effs.

Definition pullsOpened (effs : list Effect)
  : list (PeerID * Request * Cid * Selector) :=
  omap (λ e, match e with
             | EOpenPullDataChannel to v root sel _ => Some (to, v, root, sel)
             | _ => None
             end) effs.

(** How many times [x] occurs in [l]. *)
Definition occurrences {A} `{EqDecision A} (x : A) (l : list A) : nat :=
  length (filter (λ y, y = x) l).

(** The record a [Dispatch] of [r] reports for a channel in state
    [chState], if any. *)
Definition completionRecord (r : Request) (chState : datatransfer.ChannelState)
  : option PRecord :=
  if bool_decide (datatransfer.Status_ chState = datatransfer.Completed
                  ∧ datatransfer.BaseCID chState = PayloadCID r)
  then Some {| Provider := datatransfer.Recipient chState;
               PRecord_PayloadCID := datatransfer.BaseCID chState |}
  else None.

(** What a subscriber sends on channel [ch] for a channel state. *)
Definition sentBy (ch : nat) (chState : datatransfer.ChannelState)
    (sub : Subscriber) : list PRecord :=
  match sub with
  | DispatchSubscriber r ch' =>
      if bool_decide (ch' = ch) then option_list (completionRecord r chState)
      else []
  | CleanupSubscriber _ _ => []
  end.

(** Whether a subscriber removes the index entry of the channel's base
    CID on an event. *)
Definition triggersCleanup (event : datatransfer.Event)
    (chState : datatransfer.ChannelState) (sub : Subscriber) : bool :=
  match sub with
  | CleanupSubscriber h _ =>
      bool_decide (datatransfer.Code event = datatransfer.Error)
      && bool_decide (datatransfer.Recipient chState = ID h)
  | DispatchSubscriber _ _ => false
  end.

(** Every channel a subscriber of the world sends on was made before. *)
Definition channelsMade (w : World) : Prop :=
  Forall (λ s, match s.2 with
               | DispatchSubscriber _ ch => (ch < nextChan w)%nat
               | CleanupSubscriber _ _ => True
               end) (subs w).

(** ** Concrete collaborators used to exercise the definitions *)

(** A stream on which nothing arrives and every write goes through. *)
Definition quietStream : MuxedStream :=
  {| Incoming := inr (ErrExternal "EOF"); WriteCborRPC := λ _ _, None |}.

(** A host whose peer store knows, for the peers in [supporting], every
    protocol it is asked about, and none for the others. *)
Definition tableHost (self : PeerID) (conns supporting : list PeerID) : Host :=
  {| ID := self;
     Conns := (λ p, {| RemotePeer := p |}) <$> conns;
     SupportsProtocols := λ pid protos,
       if bool_decide (pid ∈ supporting) then (protos, None) else ([], None);
     NewStream := λ _ _ _, inl quietStream |}.

(** The same host, on which opening a stream to a peer in [unreachable]
    fails, and every write on an opened stream fails. *)
Definition flakyHost (self : PeerID) (conns supporting unreachable : list PeerID)
  : Host :=
  {| ID := self;
     Conns := (λ p, {| RemotePeer := p |}) <$> conns;
     SupportsProtocols := λ pid protos,
       if bool_decide (pid ∈ supporting) then (protos, None) else ([], None);
     NewStream := λ _ dest _,
       if bool_decide (dest ∈ unreachable)
       then inr (ErrExternal "dial failed")
       else inl {| Incoming := inr (ErrExternal "EOF");
                   WriteCborRPC := λ _ _, Some (ErrExternal "stream reset") |}
  |}.

Definition quietManager : Manager :=
  {| OpenPullDataChannelErr := λ _ _ _ _ _, None |}.
Definition failingManager : Manager :=
  {| OpenPullDataChannelErr := λ _ _ _ _ _, Some (ErrExternal "no channel") |}.

Definition goodStore : Store := {| PutErr := λ _ _, None |}.
Definition readOnlyStore : Store :=
  {| PutErr := λ _ _, Some (ErrExternal "read-only datastore") |}.

Definition supplyOf (h : Host) (regions : list Regions.Region) : Supply :=
  {| h := h; dt := quietManager; net := NewNetwork h regions;
     store := goodStore; regions := regions |}.

Definition requestQ : Request := {| PayloadCID := "Q"; Size := 100 |}.

(** A node connected to one peer that speaks another region's protocol
    only, so that its peer store reports no supported protocol. *)
Definition mismatchedSupply : Supply :=
  supplyOf (tableHost "A" ["B"] []) (Regions.ParseRegions ["Europe"]).

(** A node on which the stream to "C" cannot be opened and every write on
    an opened stream fails. *)
Definition flakySupply : Supply :=
  supplyOf (flakyHost "A" ["B"; "C"; "D"] ["B"; "C"; "D"] ["C"])
           (Regions.ParseRegions ["Global"]).

(** A node holding three connections to "B" and one to "C". *)
Definition doubledSupply : Supply :=
  supplyOf (tableHost "A" ["B"; "B"; "C"; "B"] ["B"; "C"])
           (Regions.ParseRegions ["Global"]).

(** Events and channel states of the bulk transport. *)
Definition errorEvent : datatransfer.Event :=
  {| datatransfer.Code := datatransfer.Error;
     datatransfer.Message := "stream reset" |}.

Definition completeEvent : datatransfer.Event :=
  {| datatransfer.Code := datatransfer.Complete; datatransfer.Message := "" |}.

Definition channelOf (status : datatransfer.Status) (root : Cid)
    (sender recipient : PeerID) : datatransfer.ChannelState :=
  {| datatransfer.Status_ := status; datatransfer.BaseCID := root;
     datatransfer.Sender := sender; datatransfer.Recipient := recipient |}.

(** The world of a provider "P" built by [New] that then received the
    request for "Q" from "R". *)
Definition providerHost : Host := tableHost "P" ["R"] ["R"].

Definition requestFrom (sender : PeerID) (m : Request) : requestStream :=
  {| requestStream_p := sender;
     requestStream_rw := {| Incoming := inl m; WriteCborRPC := λ _ _, None |} |}.

Definition providerWorld : World :=
  exec (HandleRequest {| handler_dt := quietManager; handler_s := goodStore |}
          (requestFrom "R" requestQ))
       (exec (New providerHost quietManager goodStore
                (Regions.ParseRegions ["Global"])) emptyWorld).

(** A world whose index holds one record, with the given labels. *)
Definition worldWithRecord (k : Cid) (labels : list (string * string)) : World :=
  set_index (λ _, {[ k := {| Labels := list_to_map labels |} ]}) emptyWorld.

(** A handler whose index cannot be written. *)
Definition readOnlyHandler : handler :=
  {| handler_dt := quietManager; handler_s := readOnlyStore |}.

(** A handler whose index works and whose transport refuses the pull. *)
Definition pullFailingHandler : handler :=
  {| handler_dt := failingManager; handler_s := goodStore |}.

(** ** Miner lists *)

(** The first loop of [ListMiners]: [strList] is the slice built so far;
    a region named "Global" replaces it and ends the loop. *)
Fixpoint ListMiners_strList (regions : list Regions.Region)
    (strList : list string) : list string :=
  match regions with
  | [] => strList
  | r :: rest =>
      if bool_decide (Regions.Name r = "Global") then Regions.StorageMiners r
      else ListMiners_strList rest (strList ++ Regions.StorageMiners r)
  end.

(** The second loop of [ListMiners]: [addrList] is the slice built so
    far; the first string that [address.NewFromString] refuses ends the
    loop with what was parsed before it. *)
Fixpoint ListMiners_addrList {Address : Type}
    (NewFromString : string → Address + error)
    (strList : list string) (addrList : list Address)
  : list Address * option error :=
  match strList with
  | [] => (addrList, None)
  | s :: rest =>
      match NewFromString s with
      | inr err => (addrList, Some err)
      | inl addr => ListMiners_addrList NewFromString rest (addrList ++ [addr])
      end
  end.

(** [ListMiners]; the parser of go-address is a parameter. *)
Definition ListMiners {Address : Type}
    (NewFromString : string → Address + error) (s : Supply)
  : list Address * option error :=
  ListMiners_addrList NewFromString (ListMiners_strList (regions s) []) [].

(** ** Stores of the multi-store and the transport configurer

    The calls below leave the package towards the multi-store, the
    transport and the standard output; they are logged beside the world,
    and their outcomes are read from the collaborators' records. *)

(** [datatransfer.ChannelID] *)
Record ChannelID := {
  Initiator : PeerID;
  Responder : PeerID;
  TransferID : Z;
}.

Inductive NodeCall :=
  | CallGet (id : Z) (err : option error)
  | CallDelete (id : Z) (err : option error)
  | CallUseStore (channelID : ChannelID) (storeID : Z) (err : option error)
  | CallPrintln (msg : string) (err : error)
  | CallCloseChan (ch : nat).

(** [*multistore.MultiStore], the [ms] field of [Supply]: whether [Get]
    and [Delete] of a store fail. *)
Record MultiStore := {
  GetErr : list NodeCall → Z → option error;
  DeleteErr : list NodeCall → Z → option error;
}.

(** [*multistore.Store]: its [Loader] and [Storer] are named by the
    identifier of the store they read and write. *)
Record MsStore := {
  msStoreID : Z;
}.

(** [datatransfer.Transport]: [UseStore] when the transport implements
    [StoreConfigurableTransport]. *)
Record Transport := {
  UseStoreErr : option (list NodeCall → ChannelID → Z → option error);
}.

Record Node := {
  world : World;
  calls : list NodeCall;
}.

Definition NodeM (A : Type) : Type := Node → A * Node.

Global Instance NodeM_ret : MRet NodeM := λ A a n, (a, n).

Global Instance NodeM_bind : MBind NodeM :=
  λ A B k m n, let '(a, n') := m n in k a n'.

(** A procedure of the package run inside a node. *)
Definition liftM {A} (m : M A) : NodeM A :=
  λ n, let '(a, w') := m (world n) in (a, {| world := w'; calls := calls n |}).

Definition call (c : NodeCall) : NodeM unit :=
  λ n, (tt, {| world := world n; calls := calls n ++ [c] |}).

Definition ms_Get (ms : MultiStore) (id : Z) : NodeM (MsStore + error) :=
  λ n, let err := GetErr ms (calls n) id in
       (match err with
        | Some e => inr e
        | None => inl {| msStoreID := id |}
        end,
        {| world := world n; calls := calls n ++ [CallGet id err] |}).

Definition ms_Delete (ms : MultiStore) (id : Z) : NodeM (option error) :=
  λ n, let err := DeleteErr ms (calls n) id in
       (err, {| world := world n; calls := calls n ++ [CallDelete id err] |}).

Definition GetStore (s : Supply) (ms : MultiStore) (id : Cid)
  : NodeM (MsStore + error) :=
  '(storeID, err) ← liftM (GetStoreID s id);
  match err with
  | Some e => mret (inr e)
  | None =>
      res ← ms_Get ms storeID;
      match res with
      | inr e => mret (inr e)
      | inl store => mret (inl store)
      end
  end.

Definition RemoveContent (s : Supply) (ms : MultiStore) (root : Cid)
  : NodeM (option error) :=
  '(storeID, err) ← liftM (GetStoreID s root);
  match err with
  | Some e => mret (Some e)
  | None =>
      err ← ms_Delete ms storeID;
      match err with
      | Some e => mret (Some e)
      | None => liftM (RemoveRecord (store s) root)
      end
  end.

(** [warn]: [fmt.Println("attempting to configure data store:", err)] *)
Definition warn (err : error) : NodeM unit :=
  call (CallPrintln "attempting to configure data store:" err).

Definition UseStore (use : list NodeCall → ChannelID → Z → option error)
    (channelID : ChannelID) (store : MsStore) : NodeM (option error) :=
  λ n, let err := use (calls n) channelID (msStoreID store) in
       (err, {| world := world n;
                calls := calls n ++ [CallUseStore channelID (msStoreID store) err] |}).

(** The closure [TransportConfigurer(s)] returns. *)
Definition TransportConfigurer (s : Supply) (ms : MultiStore)
    (channelID : ChannelID) (voucher : Validator.Voucher)
    (transport : Transport) : NodeM unit :=
  match voucher with
  | Validator.VoucherOther _ => mret tt
  | Validator.VoucherRequest request =>
      match UseStoreErr transport with
      | None => mret tt
      | Some gsTransport =>
          res ← GetStore s ms (PayloadCID request);
          match res with
          | inr e => warn e
          | inl store =>
              err ← UseStore gsTransport channelID store;
              match err with
              | Some e => warn e
              | None => mret tt
              end
          end
      end
  end.

(** ** Closing a response *)

(** The [Unsubscribe] returned by [SubscribeToEvents]: the subscriber
    registered under [id] is dropped. *)
Definition Unsubscribe (id : nat) : M unit :=
  λ w, (tt, set_subs (filter (λ s, s.1 ≠ id)) w).

(** [Response.Close]: [r.unsub()] and [close(r.recordChan)]. *)
Definition Response_Close (r : Response) : NodeM unit :=
  liftM (Unsubscribe (unsub r)) ;;
  call (CallCloseChan (recordChan r)).

(** ** Further vocabulary *)

(** What [sendAllRequests] does with one peer: the stream does not open,
    or it opens, one write is attempted and the stream is closed. *)
Definition streamSession (protos : list string) (r : Request) (p : PeerID)
    (effs : list Effect) : Prop :=
  (∃ e, effs = [ENewStream p protos (Some e)])
  ∨ (∃ werr, effs = [ENewStream p protos None; EWriteRequest p r werr;
                     EStreamClose p]).

(** Every subscription of the world was registered under an identifier
    already handed out. *)
Definition subsRegistered (w : World) : Prop :=
  Forall (λ s, (s.1 < nextSub w)%nat) (subs w).

(** ** Further concrete collaborators *)

(** A parser that accepts the ID addresses "f0<digits>" and returns the
    number. *)
Definition idAddress (s : string) : Z + error :=
  match s with
  | String "f" (String "0" rest) =>
      match ParseUint rest with
      | (n, None) => inl n
      | (_, Some e) => inr e
      end
  | _ => inr (Errorf "unknown address format")
  end.

Definition quietMultiStore : MultiStore :=
  {| GetErr := λ _ _, None; DeleteErr := λ _ _, None |}.

Definition stuckMultiStore : MultiStore :=
  {| GetErr := λ _ _, Some (ErrExternal "store not open");
     DeleteErr := λ _ _, Some (ErrExternal "store busy") |}.

Definition graphsyncTransport : Transport :=
  {| UseStoreErr := Some (λ _ _ _, None) |}.

Definition plainTransport : Transport := {| UseStoreErr := None |}.

Definition channelQ : ChannelID :=
  {| Initiator := "P"; Responder := "R"; TransferID := 1 |}.

Definition nodeOf (w : World) : Node := {| world := w; calls := [] |}.

(** A stream on which the request cannot be decoded. *)
Definition garbledStream (sender : PeerID) : requestStream :=
  {| requestStream_p := sender; requestStream_rw := quietStream |}.

Definition goodHandler : handler :=
  {| handler_dt := quietManager; handler_s := goodStore |}.

(** The protocol lists offered when streams are requested, and the
    protocols for which a stream handler is installed. *)
Definition streamProtocols (effs : list Effect) : list (list string) :=
  omap (λ e, match e with ENewStream _ protos _ => Some protos | _ => None end)
       effs.

Definition handlersInstalled (effs : list Effect) : list string :=
  omap (λ e, match e with ESetStreamHandler proto => Some proto | _ => None end)
       effs.

(** * Properties *)

(** ** Running procedures *)

Lemma set_log_app (e1 e2 : list Effect) (w : World) :
  set_log (λ l, l ++ e2) (set_log (λ l, l ++ e1) w)
  = set_log (λ l, l ++ (e1 ++ e2)) w.
Proof. unfold set_log; cbn. f_equal. by rewrite <-(assoc_L (++)). Qed.

Lemma set_log_nil (w : World) : set_log (λ l, l ++ []) w = w.
Proof. destruct w. unfold set_log; cbn. f_equal. by rewrite app_nil_r. Qed.

(** ** The authorization table *)

Lemma Authorize_lookup (auth : gmap Cid (gset PeerID)) (k k' : Cid) (p : PeerID) :
  Validator.Authorize k p auth !! k'
  = if decide (k = k') then Some (default ∅ (auth !! k) ∪ {[p]})
    else auth !! k'.
Proof.
  unfold Validator.Authorize.
  destruct (auth !! k) as [set|] eqn:Hk; rewrite lookup_insert;
    destruct (decide (k = k')); simpl; done.
Qed.

Lemma ValidatePull_allows_iff (auth : gmap Cid (gset PeerID)) (k : Cid)
    (q : PeerID) (voucher : Validator.Voucher) (sel : Selector) :
  Validator.ValidatePull q voucher k sel auth = None
  ↔ ∃ set, auth !! k = Some set ∧ q ∈ set.
Proof.
  unfold Validator.ValidatePull. split.
  - destruct (auth !! k) as [set|]; [|done].
    case_bool_decide; [|done]. eauto.
  - intros (set & -> & Hq). by rewrite bool_decide_true.
Qed.

Lemma authorizeAll_snoc (ops : list (Cid * PeerID)) (k : Cid) (p : PeerID)
    (auth : gmap Cid (gset PeerID)) :
  authorizeAll (ops ++ [(k, p)]) auth
  = Validator.Authorize k p (authorizeAll ops auth).
Proof. unfold authorizeAll. by rewrite foldl_app. Qed.

(** Starting from the empty table of [New], the entry of [k] is the set
    of peers authorized for [k], and it exists once one has been. *)
Lemma authorizeAll_lookup (ops : list (Cid * PeerID)) (k : Cid) :
  match authorizeAll ops ∅ !! k with
  | None => ∀ p, (k, p) ∉ ops
  | Some set => (∃ p, (k, p) ∈ ops) ∧ ∀ q, q ∈ set ↔ (k, q) ∈ ops
  end.
Proof.
  induction ops as [|[k' p'] ops IH] using rev_ind.
  - simpl. rewrite lookup_empty. intros p Hp. by apply elem_of_nil in Hp.
  - rewrite authorizeAll_snoc, Authorize_lookup.
    destruct (decide (k' = k)) as [->|Hne].
    + split; [exists p'; apply elem_of_app; right; by apply list_elem_of_singleton|].
      intros q. rewrite elem_of_union, elem_of_singleton, elem_of_app,
        list_elem_of_singleton.
      destruct (authorizeAll ops ∅ !! k) as [set|]; simpl.
      * destruct IH as [_ IH]. rewrite IH. naive_solver.
      * specialize (IH q). rewrite elem_of_empty. naive_solver.
    + destruct (authorizeAll ops ∅ !! k) as [set|].
      * destruct IH as [[p0 Hp0] IH].
        split; [exists p0; apply elem_of_app; by left|].
        intros q. rewrite IH, elem_of_app, list_elem_of_singleton. naive_solver.
      * intros p0. specialize (IH p0).
        rewrite elem_of_app, list_elem_of_singleton. naive_solver.
Qed.

(** ** Receiver selection *)

Lemma selectStep_eligible (s : Supply) (peers : list PeerID) (pconn : Conn) :
  selectStep s peers pconn
  = if eligible s (RemotePeer pconn) then peers ++ [RemotePeer pconn]
    else peers.
Proof.
  unfold selectStep, eligible.
  case_bool_decide as Hself; simpl; [|done].
  destruct (SupportsProtocols _ _ _) as [supported [e|]]; simpl; [done|].
  destruct supported; simpl; by repeat case_bool_decide.
Qed.

Lemma foldl_selectStep (s : Supply) (conns : list Conn) (acc : list PeerID) :
  foldl (selectStep s) acc conns
  = acc ++ filter (λ pid, eligible s pid) (RemotePeer <$> conns).
Proof.
  revert acc. induction conns as [|c conns IH]; intros acc; simpl.
  - by rewrite app_nil_r.
  - rewrite IH, selectStep_eligible, filter_cons.
    destruct (eligible s (RemotePeer c)) eqn:He; simpl.
    + by rewrite <-(assoc_L (++)).
    + done.
Qed.

(** [selectProviders] keeps the first [MaxReceiverCount] eligible peers,
    and fails exactly when there is none. *)
Lemma selectProviders_spec (s : Supply) :
  selectProviders s
  = (take MaxReceiverCount (eligiblePeers s),
     if bool_decide (eligiblePeers s = []) then Some ErrNoPeers else None).
Proof.
  unfold selectProviders. rewrite foldl_selectStep. simpl.
  fold (eligiblePeers s).
  destruct (eligiblePeers s) as [|p0 ps] eqn:He; [done|].
  rewrite (bool_decide_false (length _ = 0%nat)) by done.
  rewrite (bool_decide_false (_ = [])) by done.
  case_bool_decide as Hlen; [done|].
  by rewrite take_ge by lia.
Qed.

Lemma selectProviders_length (s : Supply) :
  (length (selectProviders s).1 ≤ MaxReceiverCount)%nat.
Proof. rewrite selectProviders_spec. simpl fst. rewrite length_take. lia. Qed.

(** ** The two loops of [Dispatch] *)

Lemma forEach_Authorize (k : Cid) (peers : list PeerID) (w : World) :
  forEach peers (λ p, Authorize k p) w
  = (tt, set_log (λ l, l ++ (EAuthorize k <$> peers))
           (set_auth (authorizeAll ((λ p, (k, p)) <$> peers)) w)).
Proof.
  revert w. induction peers as [|p peers IH]; intros w.
  - cbn. unfold mret, M_ret. f_equal. destruct w; unfold set_log, set_auth; cbn.
    by rewrite app_nil_r.
  - cbn [forEach]. unfold mbind, M_bind. unfold Authorize at 1.
    rewrite IH. f_equal. unfold set_log, set_auth; cbn. f_equal.
    by rewrite <-(assoc_L (++)).
Qed.

Lemma authWrites_app (e1 e2 : list Effect) :
  authWrites (e1 ++ e2) = authWrites e1 ++ authWrites e2.
Proof. apply omap_app. Qed.

Lemma authWrites_Authorize (k : Cid) (peers : list PeerID) :
  authWrites (EAuthorize k <$> peers) = (λ p, (k, p)) <$> peers.
Proof. induction peers; cbn; [done|]. by f_equal. Qed.

(** What [sendAllRequests] leaves behind: only the log grows; one stream
    is requested per peer, in order, whatever happened to the peers
    before; a write is attempted on every stream that opened, and every
    such stream is closed; no authorization is written. *)
Lemma sendAllRequests_spec (s : Supply) (r : Request) (peers : list PeerID)
    (w : World) :
  ∃ effs,
    sendAllRequests s r peers w = (tt, set_log (λ l, l ++ effs) w)
    ∧ streamRequests effs = peers
    ∧ writeAttempts effs = (λ p, (p, r)) <$> streamsOpened effs
    ∧ streamsClosed effs = streamsOpened effs
    ∧ authWrites effs = []
    ∧ (peers = [] → effs = []).
Proof.
  revert w. induction peers as [|p0 peers IH]; intros w.
  - exists []. cbn. unfold mret, M_ret. by rewrite set_log_nil.
  - unfold sendAllRequests. cbn [forEach]. fold (sendAllRequests s r peers).
    unfold mbind at 1, M_bind at 1. unfold mbind at 1, M_bind at 1.
    unfold NewRequestStream.
    destruct (NewStream _ _ _ _) as [st|err].
    + unfold mbind at 1, M_bind at 1. unfold WriteRequest; cbn [requestStream_p requestStream_rw].
      unfold mbind at 1, M_bind at 1. unfold Close, emit; cbn [requestStream_p].
      set (werr := WriteCborRPC st _ r).
      rewrite !set_log_app.
      assert (match werr with Some _ | _ => mret () end = (mret () : M unit))
        as -> by (by destruct werr).
      unfold mret, M_ret.
      match goal with |- context [sendAllRequests s r peers ?w1] =>
        destruct (IH w1) as (effs & Hrun & Hreq & Hwr & Hcl & Hau & _) end.
      exists ([ENewStream p0 (protocols (net s)) None]
                ++ [EWriteRequest p0 r werr] ++ [EStreamClose p0] ++ effs).
      split; [rewrite Hrun, set_log_app; by rewrite <-!(assoc_L (++))|].
      cbn. fold (streamRequests effs) (writeAttempts effs) (streamsOpened effs)
        (streamsClosed effs) (authWrites effs).
      rewrite Hreq, Hwr, Hcl, Hau. done.
    + unfold mret, M_ret.
      match goal with |- context [sendAllRequests s r peers ?w1] =>
        destruct (IH w1) as (effs & Hrun & Hreq & Hwr & Hcl & Hau & _) end.
      exists (ENewStream p0 (protocols (net s)) (Some err) :: effs).
      split; [rewrite Hrun, set_log_app; reflexivity|].
      cbn. fold (streamRequests effs) (writeAttempts effs) (streamsOpened effs)
        (streamsClosed effs) (authWrites effs).
      rewrite Hreq, Hwr, Hcl, Hau. done.
Qed.

Lemma streamsOpened_le (effs : list Effect) :
  (length (streamsOpened effs) ≤ length (streamRequests effs))%nat.
Proof.
  induction effs as [|e effs IH]; [done|].
  destruct e as [| ? ? [?|] | | | | | | | | | | | | |]; cbn;
    fold (streamsOpened effs) (streamRequests effs); lia.
Qed.

(** ** One run of [Dispatch] *)

(** A run of [Dispatch] from any state, for any behaviour of the host:
    the result, the effects in order, and the state it leaves. *)
Lemma Dispatch_run (s : Supply) (r : Request) (w : World) :
  let providers := take MaxReceiverCount (eligiblePeers s) in
  ∃ effs w',
    Dispatch s r w
    = (({| recordChan := nextChan w; unsub := nextSub w;
           Count := Z.of_nat (length providers) |},
        if bool_decide (eligiblePeers s = []) then Some ErrNoPeers else None),
       w')
    ∧ log w'
      = log w ++ ESubscribe (nextSub w)
          :: (EAuthorize (PayloadCID r) <$> providers) ++ effs
    ∧ streamRequests effs = providers
    ∧ writeAttempts effs = (λ p, (p, r)) <$> streamsOpened effs
    ∧ streamsClosed effs = streamsOpened effs
    ∧ authWrites effs = []
    ∧ auth w' = authorizeAll ((λ p, (PayloadCID r, p)) <$> providers) (auth w)
    ∧ subs w' = subs w ++ [(nextSub w, DispatchSubscriber r (nextChan w))]
    ∧ index w' = index w
    ∧ (providers = [] → effs = []).
Proof.
  intros providers.
  unfold Dispatch, mbind, M_bind, makeChan, SubscribeToEvents.
  rewrite selectProviders_spec. fold providers.
  case_bool_decide as Hnone.
  - exists []. eexists. split.
    { unfold mret, M_ret. subst providers. rewrite Hnone. reflexivity. }
    subst providers. rewrite Hnone. cbn. done.
  - rewrite forEach_Authorize.
    match goal with |- context [sendAllRequests s r providers ?w1] =>
      destruct (sendAllRequests_spec s r providers w1)
        as (effs & Hrun & Hreq & Hwr & Hcl & Hau & Hnil) end.
    exists effs. eexists. rewrite Hrun. unfold mret, M_ret.
    split; [reflexivity|]. cbn.
    rewrite <-!(assoc_L (++)). done.
Qed.

Lemma effects_eq {A} (m : M A) (w w' : World) (a : A) (effs : list Effect) :
  m w = (a, w') → log w' = log w ++ effs → effects m w = effs.
Proof.
  intros Hrun Hlog. unfold effects, exec. rewrite Hrun. cbn.
  by rewrite Hlog, drop_app_length.
Qed.

(** ** Counting occurrences *)

Lemma occurrences_cons {A} `{EqDecision A} (x y : A) (l : list A) :
  occurrences x (y :: l)
  = ((if decide (y = x) then 1 else 0) + occurrences x l)%nat.
Proof.
  unfold occurrences. rewrite filter_cons. by destruct (decide (y = x)).
Qed.

Lemma occurrences_take {A} `{EqDecision A} (x : A) (n : nat) (l : list A) :
  (occurrences x (take n l) ≤ occurrences x l)%nat.
Proof.
  revert n. induction l as [|y l IH]; intros [|n]; cbn [take];
    rewrite ?occurrences_cons; try (unfold occurrences; cbn; lia).
  specialize (IH n). lia.
Qed.

Lemma occurrences_fmap_inj {A B} `{EqDecision A, EqDecision B} (f : A → B)
    `{!Inj (=) (=) f} (x : A) (l : list A) :
  occurrences (f x) (f <$> l) = occurrences x l.
Proof.
  induction l as [|y l IH]; [done|].
  rewrite fmap_cons, !occurrences_cons, IH.
  destruct (decide (y = x)) as [->|Hne].
  - by rewrite decide_True.
  - rewrite decide_False; [done|]. intros Heq. by apply Hne, (inj f).
Qed.

Lemma occurrences_fmap {A B} `{EqDecision B} (f : A → B) (y : B) (l : list A) :
  occurrences y (f <$> l) = length (filter (λ a, f a = y) l).
Proof.
  unfold occurrences. induction l as [|a l IH]; [done|].
  rewrite fmap_cons, !filter_cons. destruct (decide (f a = y)); cbn; lia.
Qed.

Lemma occurrences_filter {A} `{EqDecision A} (P : A → Prop)
    `{∀ a, Decision (P a)} (x : A) (l : list A) :
  occurrences x (filter P l)
  = if decide (P x) then occurrences x l else 0%nat.
Proof.
  induction l as [|y l IH].
  - by destruct (decide (P x)).
  - rewrite filter_cons. destruct (decide (P y)) as [HP|HP];
      rewrite ?occurrences_cons, IH; destruct (decide (P x)) as [HPx|HPx];
      try done; destruct (decide (y = x)) as [->|]; done.
Qed.

Lemma eligiblePeers_occurrences (s : Supply) (p : PeerID) :
  occurrences p (eligiblePeers s)
  = if eligible s p
    then length (filter (λ c, RemotePeer c = p) (Conns (h s)))
    else 0%nat.
Proof.
  unfold eligiblePeers. rewrite occurrences_filter, occurrences_fmap.
  destruct (eligible s p); by simpl.
Qed.

Lemma streamRequests_app (e1 e2 : list Effect) :
  streamRequests (e1 ++ e2) = streamRequests e1 ++ streamRequests e2.
Proof. apply omap_app. Qed.

Lemma streamsOpened_app (e1 e2 : list Effect) :
  streamsOpened (e1 ++ e2) = streamsOpened e1 ++ streamsOpened e2.
Proof. apply omap_app. Qed.

Lemma writeAttempts_app (e1 e2 : list Effect) :
  writeAttempts (e1 ++ e2) = writeAttempts e1 ++ writeAttempts e2.
Proof. apply omap_app. Qed.

Lemma streamsClosed_app (e1 e2 : list Effect) :
  streamsClosed (e1 ++ e2) = streamsClosed e1 ++ streamsClosed e2.
Proof. apply omap_app. Qed.

Lemma streamRequests_Authorize (k : Cid) (peers : list PeerID) :
  streamRequests (EAuthorize k <$> peers) = [].
Proof. by induction peers. Qed.

Lemma streamsOpened_Authorize (k : Cid) (peers : list PeerID) :
  streamsOpened (EAuthorize k <$> peers) = [].
Proof. by induction peers. Qed.

Lemma writeAttempts_Authorize (k : Cid) (peers : list PeerID) :
  writeAttempts (EAuthorize k <$> peers) = [].
Proof. by induction peers. Qed.

Lemma streamsClosed_Authorize (k : Cid) (peers : list PeerID) :
  streamsClosed (EAuthorize k <$> peers) = [].
Proof. by induction peers. Qed.

(** The same run, read through the effects it appended. *)
Lemma Dispatch_effects (s : Supply) (r : Request) (w : World) :
  let providers := take MaxReceiverCount (eligiblePeers s) in
  let effs := effects (Dispatch s r) w in
  eval (Dispatch s r) w
  = ({| recordChan := nextChan w; unsub := nextSub w;
        Count := Z.of_nat (length providers) |},
     if bool_decide (eligiblePeers s = []) then Some ErrNoPeers else None)
  ∧ streamRequests effs = providers
  ∧ authWrites effs = (λ p, (PayloadCID r, p)) <$> providers
  ∧ writeAttempts effs = (λ p, (p, r)) <$> streamsOpened effs
  ∧ streamsClosed effs = streamsOpened effs
  ∧ (providers = [] → effs = [ESubscribe (nextSub w)])
  ∧ auth (exec (Dispatch s r) w)
    = authorizeAll ((λ p, (PayloadCID r, p)) <$> providers) (auth w).
Proof.
  intros providers effs.
  destruct (Dispatch_run s r w)
    as (sent & w' & Hrun & Hlog & Hreq & Hwr & Hcl & Hau & Hauth & _ & _ & Hnil).
  fold providers in Hrun, Hlog, Hreq, Hauth, Hnil.
  assert (effs = [ESubscribe (nextSub w)]
                   ++ (EAuthorize (PayloadCID r) <$> providers) ++ sent)
    as Heffs by (by eapply effects_eq).
  split; [unfold eval; by rewrite Hrun|].
  rewrite Heffs.
  rewrite !streamRequests_app, !authWrites_app, !writeAttempts_app,
    !streamsOpened_app, !streamsClosed_app, streamRequests_Authorize,
    authWrites_Authorize, writeAttempts_Authorize, streamsOpened_Authorize,
    streamsClosed_Authorize, Hreq, Hau, Hwr, Hcl, app_nil_r.
  repeat split; try done.
  - intros Hp. by rewrite (Hnil Hp), Hp.
  - unfold exec. by rewrite Hrun.
Qed.

(** ** Dispatch: the receiver cap *)

(** C1.  Whatever the connections of the host and whatever the outcome
    of the calls it makes, one [Dispatch] selects the first
    [MaxReceiverCount] = 7 eligible peers; the streams it requests are
    exactly the selected peers, so at most 7 are requested and at most 7
    opened; the authorization writes are exactly one per selected peer,
    all under the payload CID of the request, so at most 7. *)
Theorem Dispatch_at_most_MaxReceiverCount (s : Supply) (r : Request)
    (w : World) :
  let providers := (selectProviders s).1 in
  let effs := effects (Dispatch s r) w in
  MaxReceiverCount = 7%nat
  ∧ providers = take MaxReceiverCount (eligiblePeers s)
  ∧ (length providers ≤ MaxReceiverCount)%nat
  ∧ streamRequests effs = providers
  ∧ (length (streamsOpened effs) ≤ MaxReceiverCount)%nat
  ∧ authWrites effs = (λ p, (PayloadCID r, p)) <$> providers
  ∧ (length (authWrites effs) ≤ MaxReceiverCount)%nat
  ∧ Count (eval (Dispatch s r) w).1 <= 7.
Proof.
  intros providers effs.
  pose proof (selectProviders_length s) as Hlen. fold providers in Hlen.
  assert (providers = take MaxReceiverCount (eligiblePeers s)) as Hprov.
  { unfold providers. by rewrite selectProviders_spec. }
  destruct (Dispatch_effects s r w) as (Hres & Hreq & Hau & _).
  fold effs in Hreq, Hau. rewrite <-Hprov in Hres, Hreq, Hau.
  repeat split; try done.
  - pose proof (streamsOpened_le effs) as Hle. rewrite Hreq in Hle. lia.
  - rewrite Hau, length_fmap. done.
  - rewrite Hres. cbn [fst Count]. unfold MaxReceiverCount in Hlen. lia.
Qed.

(** ** Dispatch: no eligible peer *)

Lemma eligiblePeers_no_conns (s : Supply) :
  Conns (h s) = [] → eligiblePeers s = [].
Proof. unfold eligiblePeers. by intros ->. Qed.

Lemma eligiblePeers_unsupported (s : Supply) :
  Forall (λ c, (SupportsProtocols (h s) (RemotePeer c)
                  (protoRegions RequestProtocol (regions s))).1 = [])
         (Conns (h s)) →
  eligiblePeers s = [].
Proof.
  unfold eligiblePeers. induction 1 as [|c conns Hc _ IH]; [done|].
  rewrite fmap_cons, filter_cons, IH.
  rewrite decide_False; [done|].
  unfold eligible. destruct (SupportsProtocols _ _ _) as [supported [e|]];
    simpl in *; subst; rewrite andb_comm; simpl; by intros [].
Qed.

(** C3.  When no connected peer is eligible (in particular when the host
    has no connection, or when the peer store reports no supported
    protocol for any connected peer), [Dispatch] returns [ErrNoPeers]
    with a response whose [Count] is 0; the only effect of the call is
    the event subscription: no authorization is written, the table is
    unchanged, and no stream is requested.  The error is returned in no
    other case. *)
Theorem Dispatch_no_peers (s : Supply) (r : Request) (w : World) :
  (Conns (h s) = [] → eligiblePeers s = [])
  ∧ (Forall (λ c, (SupportsProtocols (h s) (RemotePeer c)
                     (protoRegions RequestProtocol (regions s))).1 = [])
            (Conns (h s)) →
     eligiblePeers s = [])
  ∧ (eligiblePeers s = [] →
     let effs := effects (Dispatch s r) w in
     (eval (Dispatch s r) w).2 = Some ErrNoPeers
     ∧ Count (eval (Dispatch s r) w).1 = 0
     ∧ effs = [ESubscribe (nextSub w)]
     ∧ authWrites effs = []
     ∧ streamRequests effs = []
     ∧ auth (exec (Dispatch s r) w) = auth w)
  ∧ ((eval (Dispatch s r) w).2 = Some ErrNoPeers → eligiblePeers s = []).
Proof.
  split; [apply eligiblePeers_no_conns|].
  split; [apply eligiblePeers_unsupported|].
  destruct (Dispatch_effects s r w)
    as (Hres & Hreq & Hau & _ & _ & Hnil & Hauth).
  split.
  - intros Hnone effs. fold effs in Hreq, Hau, Hnil.
    rewrite Hnone in *. cbn in Hreq, Hau, Hnil, Hauth.
    rewrite Hres. cbn. specialize (Hnil eq_refl). done.
  - rewrite Hres. cbn [snd]. by case_bool_decide.
Qed.

Lemma Dispatch_no_peers_witness :
  eligiblePeers mismatchedSupply = []
  ∧ eval (Dispatch mismatchedSupply requestQ) emptyWorld
    = ({| recordChan := 0; unsub := 0; Count := 0 |}, Some ErrNoPeers)
  ∧ streamRequests (effects (Dispatch mismatchedSupply requestQ) emptyWorld)
    = [].
Proof.
  pose proof (Dispatch_no_peers mismatchedSupply requestQ emptyWorld)
    as (_ & Hunsupported & Hnone & _).
  assert (eligiblePeers mismatchedSupply = []) as Hel.
  { apply Hunsupported. repeat constructor. }
  split; [exact Hel|].
  destruct (Hnone Hel) as (Herr & Hcount & _ & _ & Hstreams & _).
  split; [reflexivity|exact Hstreams].
Defined.

(** ** Dispatch: best-effort fan-out *)

(** C8.  [sendAllRequests] requests one stream per peer it is given, in
    order, whatever the outcome for the peers before it; on every stream
    that opened it attempts the write and closes the stream.  [Dispatch]
    then reports no error, and its [Count] is the number of selected
    peers, whether or not any stream opened or any write went through. *)
Theorem sendAllRequests_best_effort (s : Supply) (r : Request) (w : World) :
  (∀ (peers : list PeerID) (w0 : World),
     let sent := effects (sendAllRequests s r peers) w0 in
     streamRequests sent = peers
     ∧ writeAttempts sent = (λ p, (p, r)) <$> streamsOpened sent
     ∧ streamsClosed sent = streamsOpened sent)
  ∧ (eligiblePeers s ≠ [] →
     let providers := (selectProviders s).1 in
     let effs := effects (Dispatch s r) w in
     (eval (Dispatch s r) w).2 = None
     ∧ Count (eval (Dispatch s r) w).1 = Z.of_nat (length providers)
     ∧ streamRequests effs = providers
     ∧ writeAttempts effs = (λ p, (p, r)) <$> streamsOpened effs).
Proof.
  split.
  - intros peers w0 sent.
    destruct (sendAllRequests_spec s r peers w0)
      as (effs & Hrun & Hreq & Hwr & Hcl & _).
    assert (sent = effs) as ->; [|done].
    eapply effects_eq; [exact Hrun|done].
  - intros Hsome providers effs.
    assert (providers = take MaxReceiverCount (eligiblePeers s)) as Hprov.
    { unfold providers. by rewrite selectProviders_spec. }
    destruct (Dispatch_effects s r w) as (Hres & Hreq & _ & Hwr & _).
    fold effs in Hreq, Hwr. rewrite <-Hprov in Hres, Hreq.
    rewrite Hres. cbn [fst snd Count].
    by rewrite bool_decide_false.
Qed.

(** On [flakySupply] three peers are selected and counted, the stream to
    "C" does not open, the streams to "B" and "D" open after it, and no
    request is written successfully. *)
Lemma sendAllRequests_best_effort_witness :
  eligiblePeers flakySupply ≠ []
  ∧ (eval (Dispatch flakySupply requestQ) emptyWorld).2 = None
  ∧ Count (eval (Dispatch flakySupply requestQ) emptyWorld).1 = 3
  ∧ streamRequests (effects (Dispatch flakySupply requestQ) emptyWorld)
    = ["B"; "C"; "D"]
  ∧ streamsOpened (effects (Dispatch flakySupply requestQ) emptyWorld)
    = ["B"; "D"]
  ∧ requestsWritten (effects (Dispatch flakySupply requestQ) emptyWorld) = [].
Proof.
  assert (eligiblePeers flakySupply ≠ []) as Hsome by (vm_compute; discriminate).
  pose proof (sendAllRequests_best_effort flakySupply requestQ emptyWorld)
    as [_ Hdispatch].
  destruct (Hdispatch Hsome) as (Herr & Hcount & Hreq & _).
  split; [exact Hsome|].
  split; [exact Herr|].
  split; [exact Hcount|].
  split; [exact Hreq|].
  split; reflexivity.
Defined.

(** ** Dispatch: selection is per connection *)

(** C10.  Selection walks the connections: the selected list is the
    first [MaxReceiverCount] entries of the per-connection list of
    eligible peers, with no deduplication.  A peer holding [k]
    connections is selected at most [k] times, and exactly [k] times
    when it is eligible and at most [MaxReceiverCount] connections are to
    eligible peers; it is then authorized [k] times, [k] streams to it
    are requested, and every selected entry counts in [Count]. *)
Theorem selectProviders_per_connection (s : Supply) (r : Request) (w : World)
    (p : PeerID) :
  let k := length (filter (λ c, RemotePeer c = p) (Conns (h s))) in
  let providers := (selectProviders s).1 in
  let effs := effects (Dispatch s r) w in
  providers
  = take MaxReceiverCount
      (filter (λ pid, eligible s pid) (RemotePeer <$> Conns (h s)))
  ∧ (occurrences p providers ≤ k)%nat
  ∧ Count (eval (Dispatch s r) w).1 = Z.of_nat (length providers)
  ∧ (eligible s p = true →
     (length (eligiblePeers s) ≤ MaxReceiverCount)%nat →
     occurrences p providers = k
     ∧ occurrences (PayloadCID r, p) (authWrites effs) = k
     ∧ occurrences p (streamRequests effs) = k).
Proof.
  intros k providers effs.
  assert (providers = take MaxReceiverCount (eligiblePeers s)) as Hprov.
  { unfold providers. by rewrite selectProviders_spec. }
  destruct (Dispatch_effects s r w) as (Hres & Hreq & Hau & _).
  fold effs in Hreq, Hau. rewrite <-Hprov in Hres, Hreq, Hau.
  pose proof (eligiblePeers_occurrences s p) as Hocc. fold k in Hocc.
  split; [exact Hprov|].
  split.
  { rewrite Hprov. etrans; [apply occurrences_take|].
    rewrite Hocc. destruct (eligible s p); lia. }
  split; [by rewrite Hres|].
  intros Hel Hfew.
  assert (occurrences p providers = k) as Hk.
  { rewrite Hprov, take_ge by done. by rewrite Hocc, Hel. }
  split; [exact Hk|].
  split; [|by rewrite Hreq].
  rewrite Hau.
  by rewrite (occurrences_fmap_inj (λ p0, (PayloadCID r, p0)) p providers).
Qed.

Lemma selectProviders_per_connection_witness :
  eligible doubledSupply "B" = true
  ∧ (length (eligiblePeers doubledSupply) ≤ MaxReceiverCount)%nat
  ∧ length (filter (λ c, RemotePeer c = "B") (Conns (h doubledSupply))) = 3%nat
  ∧ occurrences "B" (selectProviders doubledSupply).1 = 3%nat
  ∧ occurrences ("Q", "B")
      (authWrites (effects (Dispatch doubledSupply requestQ) emptyWorld))
    = 3%nat
  ∧ occurrences "B"
      (streamRequests (effects (Dispatch doubledSupply requestQ) emptyWorld))
    = 3%nat
  ∧ Count (eval (Dispatch doubledSupply requestQ) emptyWorld).1 = 4.
Proof.
  assert (eligible doubledSupply "B" = true) as Hel by reflexivity.
  assert (length (eligiblePeers doubledSupply) ≤ MaxReceiverCount)%nat
    as Hfew by (vm_compute; lia).
  pose proof (selectProviders_per_connection doubledSupply requestQ
                emptyWorld "B") as (_ & _ & Hcount & Hk).
  destruct (Hk Hel Hfew) as (Hsel & Hau & Hreq).
  split; [exact Hel|].
  split; [exact Hfew|].
  split; [reflexivity|].
  split; [exact Hsel|].
  split; [exact Hau|].
  split; [exact Hreq|].
  exact Hcount.
Defined.

(** ** Pull validation *)

(** C2.  After [Authorize(k, p)] the pull of [k] by [p] is allowed; a CID
    without entry is refused with "unknown CID"; a receiver outside the
    entry of the CID is refused with "not authorized"; a pull is allowed
    exactly when an entry exists and contains the receiver.  Over a
    history of [Authorize] calls on the empty table of [New]: allowed
    when [(k, q)] was authorized, "not authorized" when only other peers
    were authorized for [k], "unknown CID" when nobody was. *)
Theorem ValidatePull_after_Authorize (auth : gmap Cid (gset PeerID))
    (k : Cid) (p q : PeerID) (voucher : Validator.Voucher) (sel : Selector) :
  Validator.ValidatePull p voucher k sel (Validator.Authorize k p auth) = None
  ∧ (∀ w, eval (ValidatePull p voucher k sel) (exec (Authorize k p) w) = None)
  ∧ (auth !! k = None →
     Validator.ValidatePull q voucher k sel auth = Some (Errorf "unknown CID"))
  ∧ (∀ set, auth !! k = Some set → q ∉ set →
     Validator.ValidatePull q voucher k sel auth
     = Some (Errorf "not authorized"))
  ∧ (Validator.ValidatePull q voucher k sel auth = None
     ↔ ∃ set, auth !! k = Some set ∧ q ∈ set)
  ∧ (∀ ops : list (Cid * PeerID),
     Validator.ValidatePull q voucher k sel (authorizeAll ops ∅)
     = if bool_decide ((k, q) ∈ ops) then None
       else if bool_decide (k ∈ ops.*1) then Some (Errorf "not authorized")
       else Some (Errorf "unknown CID")).
Proof.
  assert (Validator.ValidatePull p voucher k sel (Validator.Authorize k p auth)
          = None) as Hallow.
  { intros. apply ValidatePull_allows_iff.
    eexists. rewrite Authorize_lookup, decide_True by done.
    split; [done|]. apply elem_of_union; right. by apply elem_of_singleton. }
  split; [exact Hallow|].
  split.
  { intros w. unfold eval, exec, ValidatePull, Authorize. cbn.
    apply ValidatePull_allows_iff.
    eexists. rewrite Authorize_lookup, decide_True by done.
    split; [done|]. apply elem_of_union; right. by apply elem_of_singleton. }
  split.
  { intros Hnone. unfold Validator.ValidatePull. by rewrite Hnone. }
  split.
  { intros set Hset Hq. unfold Validator.ValidatePull.
    by rewrite Hset, bool_decide_false. }
  split; [apply ValidatePull_allows_iff|].
  intros ops. pose proof (authorizeAll_lookup ops k) as Hops.
  unfold Validator.ValidatePull.
  destruct (authorizeAll ops ∅ !! k) as [set|].
  - destruct Hops as [[p0 Hp0] Hset].
    rewrite (bool_decide_ext _ _ (Hset q)).
    case_bool_decide; [done|].
    rewrite bool_decide_true; [done|].
    apply list_elem_of_fmap. by exists (k, p0).
  - rewrite bool_decide_false by apply Hops.
    rewrite bool_decide_false; [done|].
    intros ([k' p0] & -> & Hin)%list_elem_of_fmap. by apply (Hops p0).
Qed.

Lemma ValidatePull_after_Authorize_witness :
  (∅ : gmap Cid (gset PeerID)) !! "Q" = None
  ∧ Validator.ValidatePull "X" (Validator.VoucherRequest requestQ) "Q"
      AllSelector ∅
    = Some (Errorf "unknown CID")
  ∧ (Validator.Authorize "Q" "B" ∅) !! "Q" = Some {["B"]}
  ∧ ("X" ∉ ({["B"]} : gset PeerID))
  ∧ Validator.ValidatePull "X" (Validator.VoucherRequest requestQ) "Q"
      AllSelector (Validator.Authorize "Q" "B" ∅)
    = Some (Errorf "not authorized").
Proof.
  assert ((∅ : gmap Cid (gset PeerID)) !! "Q" = None) as Hnone by reflexivity.
  assert ((Validator.Authorize "Q" "B" ∅) !! "Q" = Some {["B"]}) as Hset.
  { vm_compute. reflexivity. }
  assert ("X" ∉ ({["B"]} : gset PeerID)) as Hout.
  { intros Hin%elem_of_singleton. discriminate. }
  pose proof (ValidatePull_after_Authorize ∅ "Q" "B" "X"
                (Validator.VoucherRequest requestQ) AllSelector)
    as (_ & _ & Hunknown & _).
  pose proof (ValidatePull_after_Authorize (Validator.Authorize "Q" "B" ∅)
                "Q" "B" "X" (Validator.VoucherRequest requestQ) AllSelector)
    as (_ & _ & _ & Hrefused & _).
  split; [exact Hnone|].
  split; [exact (Hunknown Hnone)|].
  split; [exact Hset|].
  split; [exact Hout|].
  exact (Hrefused _ Hset Hout).
Defined.

(** ** Event subscriptions *)

Lemma recordCompletion_run (r : Request) (ch : nat) (event : datatransfer.Event)
    (chState : datatransfer.ChannelState) (w : World) :
  recordCompletion r ch event chState w
  = (tt, set_log (λ l, l ++ (ESend ch <$> option_list (completionRecord r chState)))
           w).
Proof.
  unfold recordCompletion, completionRecord.
  destruct (decide (datatransfer.Status_ chState = datatransfer.Completed))
    as [Hst|Hst].
  - rewrite (bool_decide_true _ Hst).
    destruct (decide (datatransfer.BaseCID chState = PayloadCID r)) as [Hr|Hr].
    + rewrite (bool_decide_false (_ ≠ _)) by (intros Hne; by apply Hne).
      by rewrite bool_decide_true.
    + rewrite (bool_decide_true (_ ≠ _)) by done.
      rewrite bool_decide_false by (by intros [_ ?]).
      cbn. unfold mret, M_ret. by rewrite set_log_nil.
  - rewrite (bool_decide_false _ Hst).
    rewrite bool_decide_false by (by intros [? _]).
    cbn. unfold mret, M_ret. by rewrite set_log_nil.
Qed.

Lemma cleanupOnError_run (h : Host) (store : Store) (event : datatransfer.Event)
    (chState : datatransfer.ChannelState) (w : World) :
  cleanupOnError h store event chState w
  = (tt, if triggersCleanup event chState (CleanupSubscriber h store)
         then set_log (λ l, l ++ [ERemoveRecord (datatransfer.BaseCID chState)])
                (set_index (delete (datatransfer.BaseCID chState)) w)
         else w).
Proof.
  unfold cleanupOnError, triggersCleanup.
  by destruct (_ && _).
Qed.

Lemma recordsSent_app (ch : nat) (e1 e2 : list Effect) :
  recordsSent ch (e1 ++ e2) = recordsSent ch e1 ++ recordsSent ch e2.
Proof. apply omap_app. Qed.

Lemma recordsSent_ESend (ch ch' : nat) (recs : list PRecord) :
  recordsSent ch (ESend ch' <$> recs)
  = if bool_decide (ch' = ch) then recs else [].
Proof.
  induction recs as [|rec recs IH]; [by case_bool_decide|].
  cbn. fold (recordsSent ch (ESend ch' <$> recs)). rewrite IH.
  by case_bool_decide.
Qed.

(** One round of [publish] over a list of subscribers: the log grows by
    what they emit, the records sent on [ch] are those of the
    subscribers of [ch] in order, and the index loses the base CID when
    some subscriber cleans up. *)
Lemma forEach_runSubscriber (ch : nat) (event : datatransfer.Event)
    (chState : datatransfer.ChannelState) (l : list (nat * Subscriber))
    (w : World) :
  ∃ effs w',
    forEach l (λ s, runSubscriber s.2 event chState) w = (tt, w')
    ∧ log w' = log w ++ effs
    ∧ recordsSent ch effs = l.*2 ≫= sentBy ch chState
    ∧ index w'
      = (if existsb (triggersCleanup event chState) l.*2
         then delete (datatransfer.BaseCID chState) (index w) else index w)
    ∧ auth w' = auth w.
Proof.
  revert w. induction l as [|[id sub] l IH]; intros w.
  - exists [], w. cbn. by rewrite app_nil_r.
  - cbn [forEach]. unfold mbind, M_bind. cbn [snd].
    destruct sub as [h0 store0|r0 ch0]; cbn [runSubscriber].
    + rewrite cleanupOnError_run.
      destruct (triggersCleanup event chState (CleanupSubscriber h0 store0))
        eqn:Htr.
      * match goal with |- context [forEach l _ ?w1] =>
          destruct (IH w1) as (effs & w' & Hrun & Hlog & Hsent & Hidx & Hauth)
        end.
        exists (ERemoveRecord (datatransfer.BaseCID chState) :: effs), w'.
        rewrite Hrun. split; [done|].
        split; [rewrite Hlog; cbn; by rewrite <-(assoc_L (++))|].
        split; [exact Hsent|].
        split; [|exact Hauth].
        rewrite Hidx. cbn [fmap list_fmap snd existsb]. rewrite Htr. cbn.
        destruct (existsb _ _); [|done]. apply delete_delete_eq.
      * destruct (IH w) as (effs & w' & Hrun & Hlog & Hsent & Hidx & Hauth).
        exists effs, w'. rewrite Hrun.
        repeat split; try done.
        rewrite Hidx. cbn [fmap list_fmap snd existsb]. by rewrite Htr.
    + rewrite recordCompletion_run.
      match goal with |- context [forEach l _ ?w1] =>
        destruct (IH w1) as (effs & w' & Hrun & Hlog & Hsent & Hidx & Hauth)
      end.
      exists ((ESend ch0 <$> option_list (completionRecord r0 chState)) ++ effs),
        w'.
      rewrite Hrun. split; [done|].
      split; [rewrite Hlog; cbn; by rewrite <-(assoc_L (++))|].
      split.
      { rewrite recordsSent_app, recordsSent_ESend, Hsent. cbn.
        by case_bool_decide. }
      split; [|exact Hauth].
      rewrite Hidx. done.
Qed.

Lemma publish_run (ch : nat) (event : datatransfer.Event)
    (chState : datatransfer.ChannelState) (w : World) :
  recordsSent ch (effects (publish event chState) w)
  = (subs w).*2 ≫= sentBy ch chState
  ∧ index (exec (publish event chState) w)
    = (if existsb (triggersCleanup event chState) (subs w).*2
       then delete (datatransfer.BaseCID chState) (index w) else index w)
  ∧ auth (exec (publish event chState) w) = auth w.
Proof.
  destruct (forEach_runSubscriber ch event chState (subs w) w)
    as (effs & w' & Hrun & Hlog & Hsent & Hidx & Hauth).
  assert (publish event chState w = (tt, w')) as Hpub by exact Hrun.
  rewrite (effects_eq _ _ _ _ _ Hpub Hlog).
  unfold exec. rewrite Hpub. done.
Qed.

Lemma sentBy_older (r : Request) (chState : datatransfer.ChannelState)
    (w : World) :
  channelsMade w → (subs w).*2 ≫= sentBy (nextChan w) chState = [].
Proof.
  unfold channelsMade. induction 1 as [|[id sub] l Hsub _ IH]; [done|].
  cbn. rewrite IH, app_nil_r. destruct sub as [|r0 ch0]; [done|].
  cbn in Hsub |- *. rewrite bool_decide_false; [done|lia].
Qed.

(** C6.  [Dispatch] appends to the subscriptions the closure that holds
    the request and the response channel.  Called with any event and
    channel state, that closure sends exactly one record, with the
    channel's recipient as [Provider] and the base CID as [PayloadCID],
    when the status is [Completed] and the base CID is the request's
    payload CID, and does nothing otherwise.  When the transport
    publishes an event after the dispatch, the records arriving on the
    response channel are that one record, or none. *)
Theorem Dispatch_reports_completions (s : Supply) (r : Request) (w : World)
    (event : datatransfer.Event) (chState : datatransfer.ChannelState) :
  let res := (eval (Dispatch s r) w).1 in
  let w' := exec (Dispatch s r) w in
  let rec := {| Provider := datatransfer.Recipient chState;
                PRecord_PayloadCID := datatransfer.BaseCID chState |} in
  subs w' = subs w ++ [(unsub res, DispatchSubscriber r (recordChan res))]
  ∧ (∀ w0,
       datatransfer.Status_ chState = datatransfer.Completed →
       datatransfer.BaseCID chState = PayloadCID r →
       recordCompletion r (recordChan res) event chState w0
       = (tt, set_log (λ l, l ++ [ESend (recordChan res) rec]) w0))
  ∧ (∀ w0,
       ¬ (datatransfer.Status_ chState = datatransfer.Completed
          ∧ datatransfer.BaseCID chState = PayloadCID r) →
       recordCompletion r (recordChan res) event chState w0 = (tt, w0))
  ∧ (channelsMade w →
     recordsSent (recordChan res) (effects (publish event chState) w')
     = if bool_decide (datatransfer.Status_ chState = datatransfer.Completed
                       ∧ datatransfer.BaseCID chState = PayloadCID r)
       then [rec] else []).
Proof.
  intros res w' rec.
  destruct (Dispatch_run s r w)
    as (sent & w1 & Hrun & _ & _ & _ & _ & _ & _ & Hsubs & _).
  assert (res = {| recordChan := nextChan w; unsub := nextSub w;
                   Count := Z.of_nat (length (take MaxReceiverCount
                                                (eligiblePeers s))) |})
    as Hres by (unfold res, eval; by rewrite Hrun).
  assert (w' = w1) as Hw' by (unfold w', exec; by rewrite Hrun).
  rewrite Hres, Hw'. cbn [recordChan unsub].
  split; [exact Hsubs|].
  split.
  { intros w0 Hst Hroot. rewrite recordCompletion_run.
    unfold completionRecord. by rewrite bool_decide_true. }
  split.
  { intros w0 Hno. rewrite recordCompletion_run.
    unfold completionRecord. rewrite bool_decide_false by done.
    cbn. by rewrite set_log_nil. }
  intros Hmade.
  destruct (publish_run (nextChan w) event chState w1) as (Hsent & _).
  rewrite Hsent, Hsubs, fmap_app, bind_app, (sentBy_older r chState w Hmade).
  cbn. rewrite bool_decide_true by done. rewrite app_nil_r.
  unfold completionRecord.
  by destruct (bool_decide (datatransfer.Status_ chState = _ ∧ _)).
Qed.

Lemma Dispatch_reports_completions_witness :
  channelsMade emptyWorld
  ∧ recordsSent 0
      (effects (publish completeEvent
                  (channelOf datatransfer.Completed "Q" "A" "B"))
               (exec (Dispatch doubledSupply requestQ) emptyWorld))
    = [ {| Provider := "B"; PRecord_PayloadCID := "Q" |} ]
  ∧ recordCompletion requestQ 0 completeEvent
      (channelOf datatransfer.Completed "Other" "A" "B") emptyWorld
    = (tt, emptyWorld).
Proof.
  assert (channelsMade emptyWorld) as Hmade by constructor.
  split; [exact Hmade|].
  split.
  - pose proof (Dispatch_reports_completions doubledSupply requestQ emptyWorld
                  completeEvent (channelOf datatransfer.Completed "Q" "A" "B"))
      as (_ & _ & _ & Hpub).
    exact (Hpub Hmade).
  - pose proof (Dispatch_reports_completions doubledSupply requestQ emptyWorld
                  completeEvent
                  (channelOf datatransfer.Completed "Other" "A" "B"))
      as (_ & _ & Hquiet & _).
    apply Hquiet. intros [_ Heq]. discriminate Heq.
Defined.

(** ** Construction and the cleanup subscription *)

Lemma forEach_emit {A} (f : A → Effect) (l : list A) (w : World) :
  forEach l (λ x, emit (f x)) w = (tt, set_log (λ lg, lg ++ (f <$> l)) w).
Proof.
  revert w. induction l as [|x l IH]; intros w.
  - cbn. unfold mret, M_ret. by rewrite set_log_nil.
  - cbn [forEach]. unfold mbind, M_bind, emit at 1. rewrite IH.
    by rewrite set_log_app.
Qed.

Lemma New_run (h0 : Host) (dt0 : Manager) (ds : Store)
    (regions0 : list Regions.Region) (w : World) :
  ∃ w',
    New h0 dt0 ds regions0 w
    = ({| h := h0; dt := dt0; net := NewNetwork h0 regions0; store := ds;
          regions := regions0 |}, w')
    ∧ subs w' = subs w ++ [(nextSub w, CleanupSubscriber h0 ds)]
    ∧ index w' = index w
    ∧ auth w' = ∅
    ∧ receiver w' = Some {| handler_dt := dt0; handler_s := ds |}.
Proof.
  unfold New, SetDelegate, mbind, M_bind, SubscribeToEvents.
  unfold emit at 1 2. cbv beta iota zeta.
  rewrite forEach_emit. unfold mret, M_ret.
  eexists. split; [reflexivity|]. done.
Qed.

(** C7.  [New] appends to the subscriptions the closure that holds the
    host and the store.  Called with an [Error] event for a channel whose
    recipient is the host itself, that closure removes the index entry of
    the channel's base CID and touches no other entry; called with any
    other event, or for another recipient, it changes nothing.  When the
    transport publishes such an error event in a world where the closure
    is subscribed, the entry is gone afterwards; events that are not
    errors leave the whole index as it was. *)
Theorem New_removes_record_on_error (h0 : Host) (dt0 : Manager) (ds : Store)
    (regions0 : list Regions.Region) (w : World)
    (event : datatransfer.Event) (chState : datatransfer.ChannelState) :
  let root := datatransfer.BaseCID chState in
  subs (exec (New h0 dt0 ds regions0) w)
  = subs w ++ [(nextSub w, CleanupSubscriber h0 ds)]
  ∧ (∀ w0,
       datatransfer.Code event = datatransfer.Error →
       datatransfer.Recipient chState = ID h0 →
       index (exec (cleanupOnError h0 ds event chState) w0)
       = delete root (index w0)
       ∧ index (exec (cleanupOnError h0 ds event chState) w0) !! root = None)
  ∧ (∀ w0,
       ¬ (datatransfer.Code event = datatransfer.Error
          ∧ datatransfer.Recipient chState = ID h0) →
       cleanupOnError h0 ds event chState w0 = (tt, w0))
  ∧ (∀ w0 id,
       (id, CleanupSubscriber h0 ds) ∈ subs w0 →
       datatransfer.Code event = datatransfer.Error →
       datatransfer.Recipient chState = ID h0 →
       index (exec (publish event chState) w0) = delete root (index w0))
  ∧ (∀ w0,
       datatransfer.Code event ≠ datatransfer.Error →
       index (exec (publish event chState) w0) = index w0).
Proof.
  intros root.
  split.
  { destruct (New_run h0 dt0 ds regions0 w) as (w' & Hrun & Hsubs & _).
    unfold exec. by rewrite Hrun. }
  split.
  { intros w0 Hcode Hrec. unfold exec. rewrite cleanupOnError_run.
    unfold triggersCleanup. rewrite !bool_decide_true by done. cbn.
    split; [done|]. apply lookup_delete_eq. }
  split.
  { intros w0 Hno. rewrite cleanupOnError_run. unfold triggersCleanup.
    destruct (decide (datatransfer.Code event = datatransfer.Error)) as [Hc|Hc].
    - rewrite (bool_decide_true _ Hc). rewrite bool_decide_false; [done|].
      intros Hr. by apply Hno.
    - by rewrite (bool_decide_false _ Hc). }
  split.
  { intros w0 id Hin Hcode Hrec.
    destruct (publish_run 0%nat event chState w0) as (_ & Hidx & _).
    rewrite Hidx.
    assert (existsb (triggersCleanup event chState) (subs w0).*2 = true) as ->;
      [|done].
    apply existsb_exists. exists (CleanupSubscriber h0 ds). split.
    - apply list_elem_of_In, list_elem_of_fmap. by exists (id, CleanupSubscriber h0 ds).
    - unfold triggersCleanup. by rewrite !bool_decide_true. }
  intros w0 Hcode.
  destruct (publish_run 0%nat event chState w0) as (_ & Hidx & _).
  rewrite Hidx.
  assert (existsb (triggersCleanup event chState) (subs w0).*2 = false) as ->;
    [|done].
  clear Hidx. induction (subs w0).*2 as [|sub l IH]; [done|].
  cbn. rewrite IH, orb_false_r. destruct sub; [|done].
  unfold triggersCleanup. by rewrite (bool_decide_false _ Hcode).
Qed.

(** On the provider "P" that indexed "Q" after a request from "R": an
    error on the pull of "Q" towards "P" removes the entry. *)
Lemma New_removes_record_on_error_witness :
  (0%nat, CleanupSubscriber providerHost goodStore) ∈ subs providerWorld
  ∧ datatransfer.Code errorEvent = datatransfer.Error
  ∧ datatransfer.Recipient (channelOf datatransfer.Failed "Q" "R" "P")
    = ID providerHost
  ∧ is_Some (index providerWorld !! "Q")
  ∧ index (exec (publish errorEvent
                   (channelOf datatransfer.Failed "Q" "R" "P")) providerWorld)
      !! "Q" = None.
Proof.
  assert ((0%nat, CleanupSubscriber providerHost goodStore)
          ∈ subs providerWorld) as Hin by (vm_compute; left).
  pose proof (New_removes_record_on_error providerHost quietManager goodStore
                (Regions.ParseRegions ["Global"]) emptyWorld errorEvent
                (channelOf datatransfer.Failed "Q" "R" "P"))
    as (_ & _ & _ & Hpub & _).
  split; [exact Hin|].
  split; [reflexivity|].
  split; [reflexivity|].
  split; [vm_compute; eauto|].
  rewrite (Hpub providerWorld 0%nat Hin eq_refl eq_refl).
  apply lookup_delete_eq.
Defined.

(** ** The inbound handler *)

(** A run of [HandleRequest] on a stream that carries [req]. *)
Lemma HandleRequest_run (hd : handler) (stream : requestStream) (req : Request)
    (w : World) :
  Incoming (requestStream_rw stream) = inl req →
  let sender := OtherPeer stream in
  let root := PayloadCID req in
  let storeID := (nextID w + 1) mod 2 ^ 64 in
  let rec := {| Labels := <[KStoreID := Sprintf_d storeID]>
                            (<[KSize := Sprintf_d (Size req)]> ∅) |} in
  let atPut := log w ++ [EReadRequest sender; ENext storeID] in
  let atPull := atPut ++ [EPutRecord root rec None] in
  HandleRequest hd stream w
  = (tt,
     match PutErr (handler_s hd) atPut root with
     | Some e =>
         set_log (λ l, l ++ [EReadRequest sender; ENext storeID;
                             EPutRecord root rec (Some e);
                             EStreamClose sender])
           (set_nextID storeID w)
     | None =>
         set_log (λ l, l ++ [EReadRequest sender; ENext storeID;
                             EPutRecord root rec None;
                             EOpenPullDataChannel sender req root AllSelector
                               (OpenPullDataChannelErr (handler_dt hd) atPull
                                  sender req root AllSelector);
                             EStreamClose sender])
           (set_index (λ m, <[root := rec]> m) (set_nextID storeID w))
     end).
Proof.
  intros Hin sender root storeID rec atPut atPull.
  unfold HandleRequest, defer, ReadRequest, mbind, M_bind.
  rewrite Hin.
  unfold Next, PutRecord, OpenPullDataChannel, Close, emit, OtherPeer in *.
  cbn -[Sprintf_d Z.modulo Z.add Z.pow insert app].
  fold root sender storeID. fold rec.
  replace ((log w ++ [EReadRequest sender]) ++ [ENext storeID]) with atPut
    by (unfold atPut; by rewrite <-(assoc_L (++))).
  destruct (PutErr (handler_s hd) atPut root) as [e|].
  - cbn -[Sprintf_d Z.modulo Z.add Z.pow insert app].
    f_equal. unfold set_log, set_nextID.
    cbn -[Sprintf_d Z.modulo Z.add Z.pow insert app]. f_equal.
    by rewrite <-!(assoc_L (++)).
  - cbn -[Sprintf_d Z.modulo Z.add Z.pow insert app].
    replace (((log w ++ [EReadRequest sender]) ++ [ENext storeID])
               ++ [EPutRecord root rec None]) with atPull
      by (unfold atPull, atPut; by rewrite <-!(assoc_L (++))).
    destruct (OpenPullDataChannelErr _ _ _ _ _ _) as [perr|];
      cbn -[Sprintf_d Z.modulo Z.add Z.pow insert app];
      f_equal; unfold set_log, set_index, set_nextID;
      cbn -[Sprintf_d Z.modulo Z.add Z.pow insert app]; f_equal;
      by rewrite <-!(assoc_L (++)).
Qed.

(** ** Decimal store identifiers *)

Lemma isDigit_range (ch : ascii) :
  isDigit ch = true → 0 <= byte ch - 48 <= 9.
Proof. unfold isDigit. intros [? ?]%andb_prop. lia. Qed.

Lemma parseUintLoop_not_digit (s0 rest : string) (ch : ascii) (n : Z) :
  isDigit ch = false →
  parseUintLoop s0 (String ch rest) n = (0, Some (syntaxError "ParseUint" s0)).
Proof.
  unfold isDigit. intros Hnd. cbn [parseUintLoop]. rewrite Hnd.
  destruct ((97 <=? lower (byte ch)) && (lower (byte ch) <=? 122)) eqn:Hletter;
    [|done].
  apply andb_prop in Hletter as [Hlo _].
  rewrite (proj2 (Z.leb_le 10 _)); [done|lia].
Qed.

Lemma parseUintLoop_digit (s0 rest : string) (ch : ascii) (n : Z) :
  isDigit ch = true → 0 <= n <= MaxUint64 →
  parseUintLoop s0 (String ch rest) n
  = if n * 10 + (byte ch - 48) <=? MaxUint64
    then parseUintLoop s0 rest (n * 10 + (byte ch - 48))
    else (MaxUint64, Some (rangeError "ParseUint" s0)).
Proof.
  intros Hd Hn. pose proof (isDigit_range ch Hd) as Hrange.
  unfold isDigit in Hd. cbn [parseUintLoop]. rewrite Hd.
  rewrite (proj2 (Z.leb_gt 10 _)) by lia.
  unfold cutoff, MaxUint64 in *.
  change (18446744073709551615 `div` 10 + 1) with 1844674407370955162.
  change (2 ^ 64) with 18446744073709551616.
  destruct (Z.leb_spec 1844674407370955162 n) as [Hcut|Hcut].
  - rewrite (proj2 (Z.leb_gt _ _)) by lia. done.
  - rewrite (Z.mod_small (n * 10)) by lia.
    destruct (Z.leb_spec (n * 10 + (byte ch - 48)) 18446744073709551615)
      as [Hfit|Hover].
    + rewrite Z.mod_small by lia.
      rewrite (proj2 (Z.ltb_ge _ _)) by lia.
      rewrite (proj2 (Z.ltb_ge _ _)) by lia. done.
    + assert ((n * 10 + (byte ch - 48)) `mod` 18446744073709551616
              = n * 10 + (byte ch - 48) - 18446744073709551616) as ->.
      { symmetry. apply (Z.mod_unique_pos _ _ 1); lia. }
      rewrite (proj2 (Z.ltb_lt _ _)) by lia. done.
Qed.

Lemma decimalValue_ge (s : string) (n : Z) :
  allDigits s = true → 0 <= n → n <= decimalValue s n.
Proof.
  revert n. induction s as [|ch rest IH]; intros n Hd Hn; cbn in *; [lia|].
  apply andb_prop in Hd as [Hch Hrest].
  pose proof (isDigit_range ch Hch).
  specialize (IH (n * 10 + (byte ch - 48)) Hrest). lia.
Qed.

(** On digits the loop of [ParseUint] computes the decimal value, or
    reports a range error when that value exceeds [MaxUint64]. *)
Lemma parseUintLoop_digits (s0 s : string) (n : Z) :
  allDigits s = true → 0 <= n <= MaxUint64 →
  parseUintLoop s0 s n
  = if decimalValue s n <=? MaxUint64 then (decimalValue s n, None)
    else (MaxUint64, Some (rangeError "ParseUint" s0)).
Proof.
  revert n. induction s as [|ch rest IH]; intros n Hd Hn.
  - cbn. rewrite (proj2 (Z.leb_le _ _)) by lia. done.
  - cbn [allDigits] in Hd. apply andb_prop in Hd as [Hch Hrest].
    pose proof (isDigit_range ch Hch) as Hrange.
    rewrite parseUintLoop_digit by done. cbn [decimalValue].
    destruct (Z.leb_spec (n * 10 + (byte ch - 48)) MaxUint64) as [Hfit|Hover].
    + apply IH; [done|lia].
    + pose proof (decimalValue_ge rest (n * 10 + (byte ch - 48)) Hrest).
      rewrite (proj2 (Z.leb_gt _ _)) by lia. done.
Qed.

Lemma parseUintLoop_not_digits (s0 s : string) (n : Z) :
  allDigits s = false → 0 <= n <= MaxUint64 →
  ∃ kind, parseUintLoop s0 s n
          = (if kind is ErrRange then MaxUint64 else 0,
             Some (NumError "ParseUint" s0 kind)).
Proof.
  revert n. induction s as [|ch rest IH]; intros n Hd Hn; [done|].
  cbn [allDigits] in Hd.
  destruct (isDigit ch) eqn:Hch.
  - rewrite parseUintLoop_digit by done.
    pose proof (isDigit_range ch Hch) as Hrange.
    destruct (Z.leb_spec (n * 10 + (byte ch - 48)) MaxUint64) as [Hfit|Hover].
    + apply IH; [done|lia].
    + by exists ErrRange.
  - rewrite parseUintLoop_not_digit by done. by exists ErrSyntax.
Qed.

(** [ParseUint] succeeds exactly on the non-empty strings of decimal
    digits whose value fits 64 bits, and returns that value. *)
Lemma ParseUint_ok_iff (s : string) (v : Z) :
  ParseUint s = (v, None)
  ↔ s ≠ "" ∧ allDigits s = true ∧ decimalValue s 0 = v ∧ 0 <= v <= MaxUint64.
Proof.
  unfold ParseUint. case_bool_decide as Hempty.
  { split; [done|]. by intros [? _]. }
  destruct (allDigits s) eqn:Hd.
  - rewrite parseUintLoop_digits by (done || unfold MaxUint64; lia).
    pose proof (decimalValue_ge s 0 Hd).
    destruct (Z.leb_spec (decimalValue s 0) MaxUint64); split.
    + intros [= <-]. repeat split; (done || lia).
    + by intros (_ & _ & <- & _).
    + done.
    + intros (_ & _ & <- & ?). lia.
  - destruct (parseUintLoop_not_digits s s 0 Hd) as [kind ->];
      [unfold MaxUint64; lia|].
    split; [done|]. by intros (_ & ? & _).
Qed.

(** A failure of [ParseUint] is a [NumError] about the string. *)
Lemma ParseUint_error (s : string) (v : Z) (e : error) :
  ParseUint s = (v, Some e) → ∃ kind, e = NumError "ParseUint" s kind.
Proof.
  unfold ParseUint. case_bool_decide as Hempty.
  { intros [= _ <-]. by exists ErrSyntax. }
  destruct (allDigits s) eqn:Hd.
  - rewrite parseUintLoop_digits by (done || unfold MaxUint64; lia).
    destruct (_ <=? _); [done|]. intros [= _ <-]. by exists ErrRange.
  - destruct (parseUintLoop_not_digits s s 0 Hd) as [kind ->];
      [unfold MaxUint64; lia|].
    intros [= _ <-]. by exists kind.
Qed.

Lemma pretty_N_char_digit (d : N) :
  (d < 10)%N →
  isDigit (pretty_N_char d) = true ∧ byte (pretty_N_char d) - 48 = Z.of_N d.
Proof.
  intros Hd.
  assert (d = 0 ∨ d = 1 ∨ d = 2 ∨ d = 3 ∨ d = 4 ∨ d = 5 ∨ d = 6 ∨ d = 7
          ∨ d = 8 ∨ d = 9)%N as Hcases by lia.
  repeat (destruct Hcases as [->|Hcases]; [by vm_compute|]).
  subst d. by vm_compute.
Qed.

Lemma pretty_N_go_digits (x : N) (s : string) :
  allDigits (pretty_N_go x s) = allDigits s
  ∧ decimalValue (pretty_N_go x s) 0 = decimalValue s (Z.of_N x)
  ∧ (String.length s ≤ String.length (pretty_N_go x s))%nat.
Proof.
  revert s. induction (N.lt_wf_0 x) as [x _ IH]; intros s.
  destruct (decide (x = 0%N)) as [->|Hpos].
  - by rewrite pretty_N_go_0.
  - rewrite pretty_N_go_step by lia.
    destruct (IH (x `div` 10)%N
                ltac:(apply N.div_lt; lia)
                (String (pretty_N_char (x `mod` 10)) s))
      as (Hall & Hval & Hlen).
    destruct (pretty_N_char_digit (x `mod` 10)%N
                ltac:(apply N.mod_lt; lia)) as [Hdig Hbyte].
    rewrite Hall, Hval. cbn [allDigits decimalValue String.length] in *.
    rewrite Hdig, Hbyte. repeat split; [|lia].
    f_equal. pose proof (N.div_mod x 10 ltac:(lia)). lia.
Qed.

(** What [Sprintf_d] prints for a [uint64], [ParseUint] reads back. *)
Lemma ParseUint_Sprintf_d (n : Z) :
  0 <= n <= MaxUint64 → ParseUint (Sprintf_d n) = (n, None).
Proof.
  intros Hn. apply ParseUint_ok_iff.
  destruct n as [|x|x]; [by vm_compute| |lia].
  unfold Sprintf_d, pretty, pretty_Z, pretty, pretty_positive, pretty, pretty_N.
  rewrite decide_False by done.
  destruct (pretty_N_go_digits (N.pos x) "") as (Hall & Hval & _).
  destruct (N.pos x `div` 10)%N eqn:Hdiv.
  - rewrite pretty_N_go_step, Hdiv, pretty_N_go_0 in * by lia.
    repeat split; try done; lia.
  - pose proof (pretty_N_go_step (N.pos x) "" ltac:(lia)) as Hstep.
    destruct (pretty_N_go_digits (N.pos x `div` 10)
                (String (pretty_N_char (N.pos x `mod` 10)) ""))
      as (_ & _ & Hlen).
    rewrite <-Hstep in Hlen. cbn [String.length] in Hlen.
    repeat split; try done; [|lia].
    intros Hempty. rewrite Hempty in Hlen. cbn in Hlen. lia.
Qed.

(** ** The store identifier of a content record *)

Lemma GetStoreID_run (s : Supply) (id : Cid) (w : World) :
  GetStoreID s id w
  = (match index w !! id with
     | None => (0, Some ErrNotFound)
     | Some rec =>
         match Labels rec !! KStoreID with
         | None => (0, Some (Errorf "storeID not found"))
         | Some sid =>
             match ParseUint sid with
             | (_, Some e) => (0, Some e)
             | (storeID, None) => (storeID, None)
             end
         end
     end, w).
Proof.
  unfold GetStoreID, GetRecord, mbind, M_bind.
  destruct (index w !! id) as [rec|]; [|done].
  destruct (Labels rec !! KStoreID) as [sid|]; [|done].
  by destruct (ParseUint sid) as [storeID [e|]].
Qed.

(** C9.  [GetStoreID] fails when the index has no record for the CID,
    when the record has no [KStoreID] label, and when the label is not a
    non-empty string of decimal digits whose value fits 64 bits; the
    three failures carry three different errors.  In every other case it
    returns the decimal value of the label.  In particular it returns
    the identifier given to [Register]. *)
Theorem GetStoreID_cases (s : Supply) (id : Cid) (w : World) :
  (index w !! id = None → eval (GetStoreID s id) w = (0, Some ErrNotFound))
  ∧ (∀ rec,
       index w !! id = Some rec → Labels rec !! KStoreID = None →
       eval (GetStoreID s id) w = (0, Some (Errorf "storeID not found")))
  ∧ (∀ rec sid,
       index w !! id = Some rec → Labels rec !! KStoreID = Some sid →
       ¬ (sid ≠ "" ∧ allDigits sid = true ∧ decimalValue sid 0 <= MaxUint64) →
       ∃ kind,
         eval (GetStoreID s id) w = (0, Some (NumError "ParseUint" sid kind)))
  ∧ (∀ rec sid,
       index w !! id = Some rec → Labels rec !! KStoreID = Some sid →
       sid ≠ "" → allDigits sid = true → decimalValue sid 0 <= MaxUint64 →
       eval (GetStoreID s id) w = (decimalValue sid 0, None))
  ∧ (ErrNotFound ≠ Errorf "storeID not found"
     ∧ ∀ sid kind,
         NumError "ParseUint" sid kind ≠ ErrNotFound
         ∧ NumError "ParseUint" sid kind ≠ Errorf "storeID not found")
  ∧ (∀ sid,
       0 <= sid <= MaxUint64 →
       PutErr (store s) (log w) id = None →
       eval (GetStoreID s id) (exec (Register s id sid) w) = (sid, None))
  ∧ exec (GetStoreID s id) w = w.
Proof.
  unfold eval, exec. rewrite GetStoreID_run. cbn [fst snd].
  split; [by intros ->|].
  split; [by intros rec -> ->|].
  split.
  { intros rec sid -> -> Hbad.
    destruct (ParseUint sid) as [v [e|]] eqn:Hparse.
    - destruct (ParseUint_error sid v e Hparse) as [kind ->]. by exists kind.
    - apply ParseUint_ok_iff in Hparse as (? & ? & ? & ?).
      destruct Hbad. repeat split; (done || lia). }
  split.
  { intros rec sid -> -> Hne Hd Hfit.
    pose proof (decimalValue_ge sid 0 Hd ltac:(lia)).
    rewrite (proj2 (ParseUint_ok_iff sid (decimalValue sid 0))); [done|].
    repeat split; (done || lia). }
  split; [done|].
  split; [|done].
  intros sid Hsid Hput. rewrite GetStoreID_run. cbn [fst].
  unfold Register, PutRecord. rewrite Hput. cbn [snd index set_log set_index].
  rewrite lookup_insert_eq. cbn [Labels]. rewrite lookup_insert_eq.
  by rewrite ParseUint_Sprintf_d.
Qed.

Lemma GetStoreID_cases_witness :
  eval (GetStoreID doubledSupply "Q") emptyWorld = (0, Some ErrNotFound)
  ∧ eval (GetStoreID doubledSupply "Q") (worldWithRecord "Q" [("size", "100")])
    = (0, Some (Errorf "storeID not found"))
  ∧ (∃ kind,
       eval (GetStoreID doubledSupply "Q")
            (worldWithRecord "Q" [(KStoreID, "4x2")])
       = (0, Some (NumError "ParseUint" "4x2" kind)))
  ∧ eval (GetStoreID doubledSupply "Q") (worldWithRecord "Q" [(KStoreID, "042")])
    = (42, None)
  ∧ eval (GetStoreID doubledSupply "Q")
         (exec (Register doubledSupply "Q" 7) emptyWorld)
    = (7, None).
Proof.
  split.
  { apply (GetStoreID_cases doubledSupply "Q" emptyWorld). reflexivity. }
  split.
  { eapply (GetStoreID_cases doubledSupply "Q"
              (worldWithRecord "Q" [("size", "100")])); reflexivity. }
  split.
  { eapply (GetStoreID_cases doubledSupply "Q"
              (worldWithRecord "Q" [(KStoreID, "4x2")])); try reflexivity.
    intros (_ & Hd & _). vm_compute in Hd. discriminate Hd. }
  split.
  { pose proof (GetStoreID_cases doubledSupply "Q"
                  (worldWithRecord "Q" [(KStoreID, "042")]))
      as (_ & _ & _ & Hok & _).
    eapply (Hok _ "042"); try reflexivity; [done|by vm_compute]. }
  apply (GetStoreID_cases doubledSupply "Q" emptyWorld);
    [unfold MaxUint64; lia|reflexivity].
Defined.

(** ** The steps of the inbound handler *)

(** C4.  On a stream that carries a request, [HandleRequest] takes the
    next store identifier, writes an index record for the payload CID
    whose labels are that identifier and the advertised size in decimal,
    opens a pull from the sender with the request as voucher, the payload
    CID as root and [AllSelector], and closes the stream, in that order.
    The record stays in the index whether or not the pull opened, and
    [GetStoreID] reads the identifier back from it.  When the index write
    fails no pull is opened and the index is unchanged, and the stream is
    closed all the same. *)
Theorem HandleRequest_steps (hd : handler) (stream : requestStream)
    (req : Request) (w : World) :
  Incoming (requestStream_rw stream) = inl req →
  let sender := OtherPeer stream in
  let root := PayloadCID req in
  let storeID := (nextID w + 1) mod 2 ^ 64 in
  let rec := {| Labels := <[KStoreID := Sprintf_d storeID]>
                            (<[KSize := Sprintf_d (Size req)]> ∅) |} in
  let atPut := log w ++ [EReadRequest sender; ENext storeID] in
  let atPull := atPut ++ [EPutRecord root rec None] in
  let effs := effects (HandleRequest hd stream) w in
  let w' := exec (HandleRequest hd stream) w in
  AllSelector
  = ExploreRecursive RecursionLimitNone (ExploreAll ExploreRecursiveEdge)
  ∧ Labels rec !! KStoreID = Some (Sprintf_d storeID)
  ∧ Labels rec !! KSize = Some (Sprintf_d (Size req))
  ∧ (PutErr (handler_s hd) atPut root = None →
     effs = [EReadRequest sender; ENext storeID; EPutRecord root rec None;
             EOpenPullDataChannel sender req root AllSelector
               (OpenPullDataChannelErr (handler_dt hd) atPull sender req root
                  AllSelector);
             EStreamClose sender]
     ∧ index w' = <[root := rec]> (index w)
     ∧ index w' !! root = Some rec
     ∧ ∀ s, eval (GetStoreID s root) w' = (storeID, None))
  ∧ (∀ e,
       PutErr (handler_s hd) atPut root = Some e →
       effs = [EReadRequest sender; ENext storeID;
               EPutRecord root rec (Some e); EStreamClose sender]
       ∧ pullsOpened effs = []
       ∧ streamsClosed effs = [sender]
       ∧ index w' = index w).
Proof.
  intros Hin sender root storeID rec atPut atPull effs w'.
  pose proof (HandleRequest_run hd stream req w Hin) as Hrun.
  cbv zeta in Hrun. fold sender root storeID in Hrun. fold rec in Hrun.
  fold atPut in Hrun. fold atPull in Hrun.
  split; [reflexivity|].
  split; [apply lookup_insert_eq|].
  split.
  { unfold rec. cbn [Labels]. rewrite lookup_insert_ne by done.
    apply lookup_insert_eq. }
  split.
  - intros Hput. rewrite Hput in Hrun.
    assert (effs = [EReadRequest sender; ENext storeID;
                    EPutRecord root rec None;
                    EOpenPullDataChannel sender req root AllSelector
                      (OpenPullDataChannelErr (handler_dt hd) atPull sender
                         req root AllSelector);
                    EStreamClose sender]) as Heffs.
    { eapply effects_eq; [exact Hrun|reflexivity]. }
    assert (index w' = <[root := rec]> (index w)) as Hidx.
    { unfold w', exec. by rewrite Hrun. }
    split; [exact Heffs|].
    split; [exact Hidx|].
    split; [rewrite Hidx; apply lookup_insert_eq|].
    intros s. unfold eval. rewrite GetStoreID_run. cbn [fst].
    rewrite Hidx, lookup_insert_eq. unfold rec. cbn [Labels].
    rewrite lookup_insert_eq.
    rewrite ParseUint_Sprintf_d; [done|].
    unfold storeID, MaxUint64.
    pose proof (Z.mod_pos_bound (nextID w + 1) (2 ^ 64) ltac:(lia)). lia.
  - intros e Hput. rewrite Hput in Hrun.
    assert (effs = [EReadRequest sender; ENext storeID;
                    EPutRecord root rec (Some e); EStreamClose sender])
      as Heffs.
    { eapply effects_eq; [exact Hrun|reflexivity]. }
    split; [exact Heffs|].
    rewrite Heffs. repeat split.
    unfold w', exec. by rewrite Hrun.
Qed.

(** On a provider whose transport refuses the pull, the record written
    for "Q" stays in the index; on one whose index cannot be written, no
    pull is opened and the stream is closed. *)
Lemma HandleRequest_steps_witness :
  Incoming (requestStream_rw (requestFrom "R" requestQ)) = inl requestQ
  ∧ is_Some (index (exec (HandleRequest pullFailingHandler
                            (requestFrom "R" requestQ)) emptyWorld) !! "Q")
  ∧ eval (GetStoreID doubledSupply "Q")
         (exec (HandleRequest pullFailingHandler (requestFrom "R" requestQ))
               emptyWorld)
    = (1, None)
  ∧ pullsOpened (effects (HandleRequest readOnlyHandler
                            (requestFrom "R" requestQ)) emptyWorld) = []
  ∧ streamsClosed (effects (HandleRequest readOnlyHandler
                              (requestFrom "R" requestQ)) emptyWorld) = ["R"].
Proof.
  assert (Incoming (requestStream_rw (requestFrom "R" requestQ)) = inl requestQ)
    as Hin by reflexivity.
  pose proof (HandleRequest_steps pullFailingHandler (requestFrom "R" requestQ)
                requestQ emptyWorld Hin) as (_ & _ & _ & Hok & _).
  pose proof (HandleRequest_steps readOnlyHandler (requestFrom "R" requestQ)
                requestQ emptyWorld Hin) as (_ & _ & _ & _ & Hfail).
  destruct (Hok eq_refl) as (_ & _ & Hpresent & Hid).
  destruct (Hfail _ eq_refl) as (_ & Hnopull & Hclosed & _).
  split; [exact Hin|].
  split; [eexists; exact Hpresent|].
  split; [exact (Hid doubledSupply)|].
  split; [exact Hnopull|exact Hclosed].
Defined.

(** When the index write fails, the handler does not drop every later
    step: the deferred close of the request stream still runs. *)
Lemma HandleRequest_put_failure_still_closes :
  let effs := effects (HandleRequest readOnlyHandler (requestFrom "R" requestQ))
                      emptyWorld in
  PutErr (handler_s readOnlyHandler) [EReadRequest "R"; ENext 1] "Q"
  = Some (ErrExternal "read-only datastore")
  ∧ streamsClosed effs = ["R"]
  ∧ ¬ (pullsOpened effs = [] ∧ streamsClosed effs = []).
Proof.
  split; [reflexivity|].
  split; [reflexivity|].
  intros [_ Hclosed]. vm_compute in Hclosed. discriminate Hclosed.
Qed.

(** ** The miners of the "Global" region *)

(** C5.  The preset "Global" list is North America, then Europe, then
    Oceania, and nothing else: every miner of the "Asia" preset is absent
    from it, so it is not the concatenation (nor the union) of the miner
    lists of all other presets. *)
Theorem global_omits_asia :
  Regions.StorageMiners Regions.global
    = Regions.StorageMiners Regions.northAmerica
        ++ Regions.StorageMiners Regions.europe
        ++ Regions.StorageMiners Regions.oceania
  ∧ Regions.Regions !! "Asia" = Some Regions.asia
  ∧ "f0159961" ∈ Regions.StorageMiners Regions.asia
  ∧ Forall (λ m, m ∉ Regions.StorageMiners Regions.global)
           (Regions.StorageMiners Regions.asia)
  ∧ Regions.StorageMiners Regions.global
      ≠ concat (Regions.StorageMiners <$> Regions.otherPresets).
Proof.
  split; [reflexivity|].
  split; [reflexivity|].
  split; [set_solver|].
  split.
  - apply Forall_forall. intros m Hm.
    apply (bool_decide_unpack _).
    revert m Hm. apply Forall_forall.
    repeat constructor; vm_compute; exact I.
  - intros Heq. apply (f_equal length) in Heq. vm_compute in Heq. discriminate.
Qed.


(** * Further properties *)

(** ** Regions and protocol identifiers *)

Lemma Regions_lookup_name (n : string) (r : Regions.Region) :
  Regions.Regions !! n = Some r → Regions.Name r = n.
Proof.
  unfold Regions.Regions. intros Hr.
  repeat (rewrite lookup_insert in Hr;
          destruct (decide _) as [<-|_]; [by injection Hr as <-|]).
  by rewrite lookup_empty in Hr.
Qed.

Lemma Regions_lookup_nonempty (r : Regions.Region) :
  Regions.Regions !! "" = Some r → False.
Proof. intros Hr. vm_compute in Hr. discriminate Hr. Qed.

Lemma ParseRegions_step (n : string) :
  (let r := default Regions.zeroRegion (Regions.Regions !! n) in
   if bool_decide (Regions.Name r ≠ "") then r
   else {| Regions.Name := n; Regions.Code := Regions.CustomRegion;
           Regions.PPB := 0; Regions.StorageMiners := [] |})
  = match Regions.Regions !! n with
    | Some r => r
    | None => {| Regions.Name := n; Regions.Code := Regions.CustomRegion;
                 Regions.PPB := 0; Regions.StorageMiners := [] |}
    end.
Proof.
  destruct (Regions.Regions !! n) as [r|] eqn:Hr; simpl; [|done].
  rewrite bool_decide_true; [done|].
  apply Regions_lookup_name in Hr as Hname. rewrite Hname.
  intros ->. by apply Regions_lookup_nonempty in Hr.
Qed.

Lemma ParseRegions_Name (names : list string) :
  Regions.Name <$> Regions.ParseRegions names = names.
Proof.
  unfold Regions.ParseRegions. rewrite <-list_fmap_compose.
  rewrite <-(list_fmap_id names) at 2. apply list_fmap_ext.
  intros _ n _. cbn. rewrite ParseRegions_step.
  destruct (Regions.Regions !! n) as [r|] eqn:Hr; [|done].
  by apply Regions_lookup_name.
Qed.

(** X1.  [ParseRegions] returns one region per name, in order, and each
    region carries the name it was asked for (the empty name included);
    a name that is a key of [Regions] gives the preset, any other name
    gives a region with code [CustomRegion] and no miner. *)
Theorem ParseRegions_names (names : list string) :
  Regions.Name <$> Regions.ParseRegions names = names
  ∧ length (Regions.ParseRegions names) = length names
  ∧ ∀ i n, names !! i = Some n →
      Regions.ParseRegions names !! i
      = Some (match Regions.Regions !! n with
              | Some r => r
              | None => {| Regions.Name := n;
                           Regions.Code := Regions.CustomRegion;
                           Regions.PPB := 0; Regions.StorageMiners := [] |}
              end).
Proof.
  split; [apply ParseRegions_Name|]. split.
  - unfold Regions.ParseRegions. apply length_fmap.
  - intros i n Hn. unfold Regions.ParseRegions.
    rewrite list_lookup_fmap, Hn. cbn. by rewrite ParseRegions_step.
Qed.

Lemma ParseRegions_names_witness :
  ["Asia"; ""; "Mars"] !! 2%nat = Some "Mars"
  ∧ Regions.ParseRegions ["Asia"; ""; "Mars"] !! 2%nat
    = Some {| Regions.Name := "Mars"; Regions.Code := Regions.CustomRegion;
              Regions.PPB := 0; Regions.StorageMiners := [] |}.
Proof.
  split; [reflexivity|].
  pose proof (ParseRegions_names ["Asia"; ""; "Mars"]) as (_ & _ & Hat).
  exact (Hat 2%nat "Mars" eq_refl).
Defined.

(** X2.  The protocol identifiers a node advertises for a list of region
    names are [proto/name], one per name and in the order of the names;
    different names never give the same identifier. *)
Theorem protoRegions_ParseRegions (proto : string) (names : list string) :
  protoRegions proto (Regions.ParseRegions names)
  = (λ n, proto +:+ "/" +:+ n) <$> names
  ∧ length (protoRegions proto (Regions.ParseRegions names)) = length names
  ∧ (∀ i j n1 n2,
       names !! i = Some n1 → names !! j = Some n2 →
       protoRegions proto (Regions.ParseRegions names) !! i
       = protoRegions proto (Regions.ParseRegions names) !! j →
       n1 = n2)
  ∧ (NoDup names → NoDup (protoRegions proto (Regions.ParseRegions names))).
Proof.
  assert (protoRegions proto (Regions.ParseRegions names)
          = (λ n, proto +:+ "/" +:+ n) <$> names) as Heq.
  { unfold protoRegions.
    rewrite <-(ParseRegions_Name names) at 2.
    by rewrite <-list_fmap_compose. }
  assert (Inj (=) (=) (λ n, proto +:+ "/" +:+ n)) as Hinj.
  { intros n1 n2 Hn. by apply String.app_inj, String.app_inj in Hn. }
  rewrite Heq. split; [done|]. split; [apply length_fmap|]. split.
  - intros i j n1 n2 Hi Hj. rewrite !list_lookup_fmap, Hi, Hj. cbn.
    intros [= Hn]. by apply Hinj in Hn.
  - intros Hnd. by apply (NoDup_fmap_2 _).
Qed.

Lemma protoRegions_ParseRegions_witness :
  NoDup ["Europe"; "Mars"]
  ∧ NoDup (protoRegions RequestProtocol (Regions.ParseRegions ["Europe"; "Mars"]))
  ∧ protoRegions RequestProtocol (Regions.ParseRegions ["Europe"; "Mars"])
    = ["/myel/supply/dispatch/1.0/Europe"; "/myel/supply/dispatch/1.0/Mars"].
Proof.
  assert (NoDup ["Europe"; "Mars"]) as Hnd.
  { apply (bool_decide_unpack _). by vm_compute. }
  pose proof (protoRegions_ParseRegions RequestProtocol ["Europe"; "Mars"])
    as (Heq & _ & _ & Hdistinct).
  split; [exact Hnd|]. split; [exact (Hdistinct Hnd)|exact Heq].
Defined.

(** ** Listing miners *)

Lemma ListMiners_strList_no_Global (rs : list Regions.Region)
    (acc : list string) :
  Forall (λ r, Regions.Name r ≠ "Global") rs →
  ListMiners_strList rs acc = acc ++ concat (Regions.StorageMiners <$> rs).
Proof.
  intros Hrs. revert acc. induction Hrs as [|r rs Hr _ IH]; intros acc; cbn.
  - by rewrite app_nil_r.
  - rewrite bool_decide_false by done. by rewrite IH, (assoc_L (++)).
Qed.

Lemma ListMiners_strList_Global (pre post : list Regions.Region)
    (g : Regions.Region) (acc : list string) :
  Forall (λ r, Regions.Name r ≠ "Global") pre →
  Regions.Name g = "Global" →
  ListMiners_strList (pre ++ g :: post) acc = Regions.StorageMiners g.
Proof.
  intros Hpre Hg. revert acc. induction Hpre as [|r pre Hr _ IH]; intros acc.
  - cbn. by rewrite bool_decide_true.
  - cbn. rewrite bool_decide_false by done. apply IH.
Qed.

Lemma ListMiners_addrList_ok {Address : Type}
    (NewFromString : string → Address + error) (strs : list string)
    (acc addrs : list Address) :
  Forall2 (λ m a, NewFromString m = inl a) strs addrs →
  ListMiners_addrList NewFromString strs acc = (acc ++ addrs, None).
Proof.
  intros Hall. revert acc. induction Hall as [|m a strs addrs Hm _ IH];
    intros acc; cbn.
  - by rewrite app_nil_r.
  - rewrite Hm, IH. by rewrite <-(assoc_L (++)).
Qed.

Lemma ListMiners_addrList_err {Address : Type}
    (NewFromString : string → Address + error) (good rest : list string)
    (bad : string) (acc addrs : list Address) (e : error) :
  Forall2 (λ m a, NewFromString m = inl a) good addrs →
  NewFromString bad = inr e →
  ListMiners_addrList NewFromString (good ++ bad :: rest) acc
  = (acc ++ addrs, Some e).
Proof.
  intros Hall Hbad. revert acc. induction Hall as [|m a strs addrs Hm _ IH];
    intros acc; cbn.
  - by rewrite Hbad, app_nil_r.
  - rewrite Hm, IH. by rewrite <-(assoc_L (++)).
Qed.

(** X3.  When the regions of the node include one named "Global",
    [ListMiners] answers from the miner list of the first such region
    alone: the regions before it and after it contribute nothing.  It
    returns the parsed addresses in order, or, at the first string the
    address parser refuses, that error with the addresses parsed so
    far. *)
Theorem ListMiners_Global {Address : Type}
    (NewFromString : string → Address + error) (s : Supply)
    (pre post : list Regions.Region) (g : Regions.Region) :
  regions s = pre ++ g :: post →
  Forall (λ r, Regions.Name r ≠ "Global") pre →
  Regions.Name g = "Global" →
  (∀ addrs,
     Forall2 (λ m a, NewFromString m = inl a) (Regions.StorageMiners g) addrs →
     ListMiners NewFromString s = (addrs, None))
  ∧ (∀ good bad rest addrs e,
       Regions.StorageMiners g = good ++ bad :: rest →
       Forall2 (λ m a, NewFromString m = inl a) good addrs →
       NewFromString bad = inr e →
       ListMiners NewFromString s = (addrs, Some e)).
Proof.
  intros Hregions Hpre Hg. unfold ListMiners.
  rewrite Hregions, (ListMiners_strList_Global pre post g [] Hpre Hg).
  split.
  - intros addrs Hall. by rewrite (ListMiners_addrList_ok _ _ [] addrs).
  - intros good bad rest addrs e -> Hall Hbad.
    by rewrite (ListMiners_addrList_err _ good rest bad [] addrs e).
Qed.

Lemma ListMiners_Global_witness :
  ListMiners idAddress
    (supplyOf (tableHost "A" [] [])
       [ Regions.asia;
         {| Regions.Name := "Global"; Regions.Code := Regions.GlobalRegion;
            Regions.PPB := 0; Regions.StorageMiners := ["f07"; "f09"] |};
         Regions.oceania ])
  = ([7; 9], None).
Proof.
  eapply (ListMiners_Global idAddress _ [Regions.asia] [Regions.oceania]).
  - reflexivity.
  - repeat constructor. discriminate.
  - reflexivity.
  - repeat constructor.
Defined.

(** X4.  When no region of the node is named "Global", [ListMiners]
    walks the miner lists of the regions in order: it returns all the
    parsed addresses, or, at the first string the address parser
    refuses, that error together with the addresses parsed before it. *)
Theorem ListMiners_concat {Address : Type}
    (NewFromString : string → Address + error) (s : Supply) :
  Forall (λ r, Regions.Name r ≠ "Global") (regions s) →
  (∀ addrs,
     Forall2 (λ m a, NewFromString m = inl a)
             (concat (Regions.StorageMiners <$> regions s)) addrs →
     ListMiners NewFromString s = (addrs, None))
  ∧ (∀ good bad rest addrs e,
       concat (Regions.StorageMiners <$> regions s) = good ++ bad :: rest →
       Forall2 (λ m a, NewFromString m = inl a) good addrs →
       NewFromString bad = inr e →
       ListMiners NewFromString s = (addrs, Some e)).
Proof.
  intros Hno. unfold ListMiners.
  rewrite (ListMiners_strList_no_Global _ [] Hno). cbn [app].
  split.
  - intros addrs Hall. by rewrite (ListMiners_addrList_ok _ _ [] addrs).
  - intros good bad rest addrs e -> Hall Hbad.
    by rewrite (ListMiners_addrList_err _ good rest bad [] addrs e).
Qed.

Lemma ListMiners_concat_witness :
  ListMiners idAddress
    (supplyOf (tableHost "A" [] [])
       [ Regions.oceania;
         {| Regions.Name := "Mars"; Regions.Code := Regions.CustomRegion;
            Regions.PPB := 0; Regions.StorageMiners := ["f07"; "t08"; "f09"] |} ])
  = ([14365; 7], Some (Errorf "unknown address format")).
Proof.
  eapply (ListMiners_concat idAddress _).
  - repeat constructor; discriminate.
  - instantiate (1 := ["f09"]). instantiate (1 := "t08").
    instantiate (1 := ["f014365"; "f07"]). reflexivity.
  - repeat constructor.
  - reflexivity.
Defined.

(** ** Dispatch and the authorization table *)

Lemma filter_key_absent (ops : list (Cid * PeerID)) (k : Cid) :
  k ∉ ops.*1 → filter (λ op, op.1 = k) ops = [].
Proof.
  induction ops as [|[k' p'] ops IH]; [done|]. cbn [fmap list_fmap fst].
  intros Hk. rewrite filter_cons, decide_False.
  - apply IH. intros Hin. apply Hk. by right.
  - cbn. intros ->. apply Hk. by left.
Qed.

(** The entry of [k] after a run of [Authorize] calls on any table. *)
Lemma authorizeAll_lookup_from (ops : list (Cid * PeerID))
    (auth : gmap Cid (gset PeerID)) (k : Cid) :
  authorizeAll ops auth !! k
  = if decide (k ∈ ops.*1)
    then Some (default ∅ (auth !! k)
               ∪ list_to_set (filter (λ op, op.1 = k) ops).*2)
    else auth !! k.
Proof.
  induction ops as [|[k' p'] ops IH] using rev_ind.
  - cbn. rewrite decide_False; [done|]. by intros ?%elem_of_nil.
  - rewrite authorizeAll_snoc, Authorize_lookup.
    rewrite fmap_app, filter_app, fmap_app, list_to_set_app_L.
    cbn [fmap list_fmap fst].
    destruct (decide (k' = k)) as [->|Hne].
    + rewrite (decide_True (P := k ∈ _ ++ _))
        by (apply elem_of_app; right; by apply list_elem_of_singleton).
      rewrite filter_cons, decide_True by done. cbn. rewrite IH.
      rewrite (right_id_L ∅ (∪)). f_equal.
      destruct (decide (k ∈ ops.*1)) as [Hin|Hout]; cbn.
      * by rewrite (assoc_L (∪)).
      * rewrite (filter_key_absent ops k Hout). cbn.
        by rewrite (left_id_L ∅ (∪)).
    + rewrite filter_cons.
      rewrite (decide_False (P := (k', p').1 = k)) by (cbn; done).
      cbn. rewrite IH, (right_id_L ∅ (∪)).
      destruct (decide (k ∈ ops.*1)) as [Hin|Hout].
      * rewrite decide_True; [done|]. apply elem_of_app; by left.
      * rewrite decide_False; [done|].
        rewrite elem_of_app, list_elem_of_singleton. naive_solver.
Qed.

Lemma authorizeAll_allows (ops : list (Cid * PeerID))
    (auth : gmap Cid (gset PeerID)) (k : Cid) (q : PeerID) :
  (∃ set, authorizeAll ops auth !! k = Some set ∧ q ∈ set)
  ↔ (∃ set, auth !! k = Some set ∧ q ∈ set) ∨ (k, q) ∈ ops.
Proof.
  rewrite authorizeAll_lookup_from.
  assert (q ∈ (list_to_set (filter (λ op, op.1 = k) ops).*2 : gset PeerID)
          ↔ (k, q) ∈ ops) as Hmem.
  { rewrite elem_of_list_to_set, list_elem_of_fmap. split.
    - intros ([k' q'] & -> & [Hk Hin]%list_elem_of_filter).
      cbn in Hk. by subst.
    - intros Hin. exists (k, q). split; [done|].
      by apply list_elem_of_filter. }
  destruct (decide (k ∈ ops.*1)) as [Hk|Hk].
  - split.
    + intros (set & [= <-] & [Hq|Hq]%elem_of_union).
      * destruct (auth !! k) as [old|]; [left; eauto|].
        cbn in Hq. by apply elem_of_empty in Hq.
      * right. by apply Hmem.
    + intros [(set & Hset & Hq)|Hq]; eexists; (split; [done|]).
      * rewrite Hset. cbn. apply elem_of_union; by left.
      * apply elem_of_union; right. by apply Hmem.
  - split; [by left|]. intros [?|Hin]; [done|].
    destruct Hk. apply list_elem_of_fmap. by exists (k, q).
Qed.

(** X5.  After [Dispatch], a pull is allowed exactly when it was allowed
    before or it is a pull of the request's CID by one of the selected
    peers: every selected peer may pull, earlier grants stay, and a peer
    that was neither selected nor authorized before is still refused,
    as is every pull of another CID that was refused before. *)
Theorem Dispatch_authorizes_selected (s : Supply) (r : Request) (w : World)
    (q : PeerID) (k : Cid) (voucher : Validator.Voucher) (sel : Selector) :
  Validator.ValidatePull q voucher k sel (auth (exec (Dispatch s r) w)) = None
  ↔ Validator.ValidatePull q voucher k sel (auth w) = None
    ∨ (k = PayloadCID r ∧ q ∈ (selectProviders s).1).
Proof.
  destruct (Dispatch_effects s r w) as (_ & _ & _ & _ & _ & _ & Hauth).
  rewrite Hauth, !ValidatePull_allows_iff, authorizeAll_allows.
  rewrite selectProviders_spec. cbn [fst].
  rewrite list_elem_of_fmap. split.
  - intros [?|(p & [= -> ->] & Hp)]; [by left|by right].
  - intros [?|[-> Hq]]; [by left|]. right. by exists q.
Qed.


(** ** The order of the effects of a dispatch *)

Lemma sendAllRequests_sessions (s : Supply) (r : Request)
    (peers : list PeerID) (w : World) :
  ∃ sessions,
    sendAllRequests s r peers w = (tt, set_log (λ l, l ++ concat sessions) w)
    ∧ Forall2 (streamSession (protocols (net s)) r) peers sessions.
Proof.
  revert w. induction peers as [|p0 peers IH]; intros w.
  - exists []. cbn. unfold mret, M_ret. rewrite set_log_nil. by split.
  - unfold sendAllRequests. cbn [forEach]. fold (sendAllRequests s r peers).
    unfold mbind at 1, M_bind at 1. unfold mbind at 1, M_bind at 1.
    unfold NewRequestStream.
    destruct (NewStream _ _ _ _) as [st|err].
    + unfold mbind at 1, M_bind at 1.
      unfold WriteRequest; cbn [requestStream_p requestStream_rw].
      unfold mbind at 1, M_bind at 1. unfold Close, emit; cbn [requestStream_p].
      set (werr := WriteCborRPC st _ r).
      rewrite !set_log_app.
      assert (match werr with Some _ | _ => mret () end = (mret () : M unit))
        as -> by (by destruct werr).
      unfold mret, M_ret.
      match goal with |- context [sendAllRequests s r peers ?w1] =>
        destruct (IH w1) as (sessions & Hrun & Hsessions) end.
      exists ([ENewStream p0 (protocols (net s)) None; EWriteRequest p0 r werr;
               EStreamClose p0] :: sessions).
      split; [rewrite Hrun, set_log_app; reflexivity|].
      constructor; [|done]. right. by exists werr.
    + unfold mret, M_ret.
      match goal with |- context [sendAllRequests s r peers ?w1] =>
        destruct (IH w1) as (sessions & Hrun & Hsessions) end.
      exists ([ENewStream p0 (protocols (net s)) (Some err)] :: sessions).
      split; [rewrite Hrun, set_log_app; reflexivity|].
      constructor; [|done]. left. by exists err.
Qed.

Lemma Dispatch_sessions (s : Supply) (r : Request) (w : World) :
  let providers := (selectProviders s).1 in
  ∃ sessions,
    effects (Dispatch s r) w
    = [ESubscribe (nextSub w)]
        ++ (EAuthorize (PayloadCID r) <$> providers)
        ++ concat sessions
    ∧ Forall2 (streamSession (protocols (net s)) r) providers sessions.
Proof.
  intros providers.
  assert (providers = take MaxReceiverCount (eligiblePeers s)) as Hprov.
  { unfold providers. by rewrite selectProviders_spec. }
  assert (∃ sessions w',
    Dispatch s r w
    = (({| recordChan := nextChan w; unsub := nextSub w;
           Count := Z.of_nat (length providers) |},
        if bool_decide (eligiblePeers s = []) then Some ErrNoPeers else None),
       w')
    ∧ log w' = log w ++ [ESubscribe (nextSub w)]
                 ++ (EAuthorize (PayloadCID r) <$> providers)
                 ++ concat sessions
    ∧ Forall2 (streamSession (protocols (net s)) r) providers sessions)
    as (sessions & w' & Hrun & Hlog & Hsessions).
  { rewrite Hprov.
    unfold Dispatch, mbind, M_bind, makeChan, SubscribeToEvents.
    rewrite selectProviders_spec.
    case_bool_decide as Hnone.
    - exists []. eexists. rewrite Hnone. split; [reflexivity|].
      split; [reflexivity|constructor].
    - rewrite forEach_Authorize.
      match goal with |- context [sendAllRequests s r ?ps ?w1] =>
        destruct (sendAllRequests_sessions s r ps w1)
          as (sessions & Hrun & Hsessions) end.
      exists sessions. eexists. rewrite Hrun. unfold mret, M_ret.
      split; [reflexivity|]. split; [|done]. cbn.
      by rewrite <-!(assoc_L (++)). }
  exists sessions. split; [|done].
  by eapply effects_eq.
Qed.

(** X7.  The effects of one [Dispatch] come in this order: the event
    subscription first, then one authorization per selected peer, then
    one stream session per selected peer, in the order of selection.  So
    no peer is contacted before every selected peer is authorized; a
    session is either a stream that failed to open, or a stream that
    opened, took one write attempt and was closed before the next peer
    is contacted. *)
Theorem Dispatch_effects_in_order (s : Supply) (r : Request) (w : World) :
  let providers := (selectProviders s).1 in
  ∃ sessions,
    effects (Dispatch s r) w
    = [ESubscribe (nextSub w)]
        ++ (EAuthorize (PayloadCID r) <$> providers)
        ++ concat sessions
    ∧ Forall2 (streamSession (protocols (net s)) r) providers sessions.
Proof.
  intros providers.
  destruct (Dispatch_sessions s r w) as (sessions & Heffs & Hsessions).
  exists sessions. by split.
Qed.

(** ** Who is selected *)

Lemma eligible_iff (s : Supply) (p : PeerID) :
  eligible s p = true
  ↔ p ≠ ID (h s)
    ∧ ∃ supported,
        SupportsProtocols (h s) p (protoRegions RequestProtocol (regions s))
        = (supported, None)
        ∧ supported ≠ [].
Proof.
  unfold eligible.
  destruct (SupportsProtocols _ _ _) as [supported [e|]].
  - rewrite andb_false_r. split; [done|]. by intros (_ & ? & [= _ ?] & _).
  - rewrite andb_true_iff, !bool_decide_eq_true. split.
    + intros [? ?]. eauto.
    + intros (? & ? & [= <-] & ?). done.
Qed.

(** X8.  The selected peers are taken from the connections in connection
    order; each of them is another peer for which the peer store
    answered, without error, a non-empty list of supported protocols.
    When at most [MaxReceiverCount] connections qualify, every
    connection that qualifies is selected.  [selectProviders] returns an
    error exactly when it returns no peer. *)
Theorem selectProviders_sound_complete (s : Supply) :
  let providers := (selectProviders s).1 in
  let protos := protoRegions RequestProtocol (regions s) in
  providers `sublist_of` (RemotePeer <$> Conns (h s))
  ∧ (∀ p, p ∈ providers →
       p ≠ ID (h s)
       ∧ ∃ supported,
           SupportsProtocols (h s) p protos = (supported, None)
           ∧ supported ≠ [])
  ∧ ((length (eligiblePeers s) ≤ MaxReceiverCount)%nat →
     ∀ c supported,
       c ∈ Conns (h s) → RemotePeer c ≠ ID (h s) →
       SupportsProtocols (h s) (RemotePeer c) protos = (supported, None) →
       supported ≠ [] →
       RemotePeer c ∈ providers)
  ∧ ((selectProviders s).2 = None ↔ providers ≠ []).
Proof.
  intros providers protos.
  assert (providers = take MaxReceiverCount (eligiblePeers s)) as Hprov.
  { unfold providers. by rewrite selectProviders_spec. }
  split.
  { rewrite Hprov. etrans; [apply sublist_take|]. apply sublist_filter. }
  split.
  { intros p Hp. rewrite Hprov in Hp.
    apply (subseteq_take MaxReceiverCount (eligiblePeers s)) in Hp.
    apply list_elem_of_filter in Hp as [Hel _].
    apply eligible_iff. by apply Is_true_true. }
  split.
  { intros Hfew c supported Hc Hself Hsup Hne.
    rewrite Hprov, take_ge by done.
    apply list_elem_of_filter. split.
    - apply Is_true_true, eligible_iff. eauto.
    - apply list_elem_of_fmap. eauto. }
  rewrite Hprov, selectProviders_spec. cbn [snd].
  destruct (eligiblePeers s) as [|p0 ps]; cbn; [|done].
  split; [done|]. by intros [].
Qed.

Lemma selectProviders_sound_complete_witness :
  (length (eligiblePeers doubledSupply) ≤ MaxReceiverCount)%nat
  ∧ {| RemotePeer := "C" |} ∈ Conns (h doubledSupply)
  ∧ "C" ∈ (selectProviders doubledSupply).1
  ∧ "C" ≠ ID (h doubledSupply).
Proof.
  assert (length (eligiblePeers doubledSupply) ≤ MaxReceiverCount)%nat
    as Hfew by (vm_compute; lia).
  assert ({| RemotePeer := "C" |} ∈ Conns (h doubledSupply)) as Hc.
  { cbn. do 2 right. left. }
  pose proof (selectProviders_sound_complete doubledSupply)
    as (_ & Hsound & Hcomplete & _).
  assert ("C" ∈ (selectProviders doubledSupply).1) as Hin.
  { eapply (Hcomplete Hfew {| RemotePeer := "C" |});
      [exact Hc|discriminate|reflexivity|discriminate]. }
  split; [exact Hfew|]. split; [exact Hc|]. split; [exact Hin|].
  exact (proj1 (Hsound "C" Hin)).
Defined.

(** ** What a published event reaches *)

(** X9.  When the transport publishes an event, the records sent on a
    channel are exactly those of the subscriptions of [Dispatch] that
    hold this channel and a request for the base CID of the event's
    channel, and only when the status is [Completed]: every dispatch of
    that CID still subscribed is told, whoever caused the transfer, and
    a record always names the recipient of the channel. *)
Theorem publish_records (w : World) (ch : nat) (event : datatransfer.Event)
    (chState : datatransfer.ChannelState) (rec : PRecord) :
  rec ∈ recordsSent ch (effects (publish event chState) w)
  ↔ (∃ id r, (id, DispatchSubscriber r ch) ∈ subs w
             ∧ datatransfer.BaseCID chState = PayloadCID r)
    ∧ datatransfer.Status_ chState = datatransfer.Completed
    ∧ rec = {| Provider := datatransfer.Recipient chState;
               PRecord_PayloadCID := datatransfer.BaseCID chState |}.
Proof.
  destruct (publish_run ch event chState w) as (-> & _).
  rewrite list_elem_of_bind. split.
  - intros (sub & Hrec & [[id sub'] [-> Hin]]%list_elem_of_fmap).
    cbn in Hrec. destruct sub' as [|r ch']; cbn in Hrec;
      [by apply elem_of_nil in Hrec|].
    case_bool_decide as Hch; [subst ch'|by apply elem_of_nil in Hrec].
    unfold completionRecord in Hrec.
    case_bool_decide as Hcond; cbn in Hrec; [|by apply elem_of_nil in Hrec].
    apply list_elem_of_singleton in Hrec. destruct Hcond as [Hst Hroot].
    split; [|done]. by exists id, r.
  - intros ((id & r & Hin & Hroot) & Hst & ->).
    exists (DispatchSubscriber r ch). split.
    + cbn. rewrite bool_decide_true by done. unfold completionRecord.
      rewrite bool_decide_true by done. cbn. by apply list_elem_of_singleton.
    + apply list_elem_of_fmap. by exists (id, DispatchSubscriber r ch).
Qed.

(** ** Separation of the two sides *)

Lemma HandleRequest_decode_failure_run (hd : handler) (stream : requestStream)
    (err : error) (w : World) :
  Incoming (requestStream_rw stream) = inr err →
  HandleRequest hd stream w
  = (tt, set_log (λ l, l ++ [EReadRequest (requestStream_p stream);
                             EStreamClose (requestStream_p stream)]) w).
Proof.
  intros Hin. unfold HandleRequest, defer, ReadRequest, mbind, M_bind.
  rewrite Hin. unfold Close, emit, mret, M_ret. by rewrite set_log_app.
Qed.

(** X10.  A request whose bytes do not decode has no effect beyond the
    read and the close of its stream: no store identifier is taken, the
    index and the authorization table are unchanged, no pull is
    opened. *)
Theorem HandleRequest_decode_failure (hd : handler) (stream : requestStream)
    (err : error) (w : World) :
  Incoming (requestStream_rw stream) = inr err →
  let w' := exec (HandleRequest hd stream) w in
  effects (HandleRequest hd stream) w
  = [EReadRequest (OtherPeer stream); EStreamClose (OtherPeer stream)]
  ∧ nextID w' = nextID w
  ∧ index w' = index w
  ∧ auth w' = auth w
  ∧ subs w' = subs w.
Proof.
  intros Hin w'.
  pose proof (HandleRequest_decode_failure_run hd stream err w Hin) as Hrun.
  split; [by eapply effects_eq|].
  unfold w', exec. by rewrite Hrun.
Qed.

Lemma HandleRequest_decode_failure_witness :
  Incoming (requestStream_rw (garbledStream "R")) = inr (ErrExternal "EOF")
  ∧ effects (HandleRequest goodHandler (garbledStream "R")) providerWorld
    = [EReadRequest "R"; EStreamClose "R"]
  ∧ index (exec (HandleRequest goodHandler (garbledStream "R")) providerWorld)
    = index providerWorld.
Proof.
  assert (Incoming (requestStream_rw (garbledStream "R"))
          = inr (ErrExternal "EOF")) as Hin by reflexivity.
  pose proof (HandleRequest_decode_failure goodHandler (garbledStream "R")
                (ErrExternal "EOF") providerWorld Hin)
    as (Heffs & _ & Hidx & _).
  split; [exact Hin|]. split; [exact Heffs|exact Hidx].
Defined.

(** X11.  Receiving a request never authorizes anyone: whatever arrives
    on the stream and whatever the store and the transport answer,
    [HandleRequest] leaves the authorization table and the event
    subscriptions as they were, so every pull validation answers as
    before.  [Dispatch], for its part, never writes the content index. *)
Theorem HandleRequest_never_authorizes (hd : handler) (stream : requestStream)
    (s : Supply) (r : Request) (w : World) :
  auth (exec (HandleRequest hd stream) w) = auth w
  ∧ subs (exec (HandleRequest hd stream) w) = subs w
  ∧ (∀ q voucher k sel,
       eval (ValidatePull q voucher k sel) (exec (HandleRequest hd stream) w)
       = eval (ValidatePull q voucher k sel) w)
  ∧ index (exec (Dispatch s r) w) = index w
  ∧ nextID (exec (Dispatch s r) w) = nextID w.
Proof.
  assert (auth (exec (HandleRequest hd stream) w) = auth w
          ∧ subs (exec (HandleRequest hd stream) w) = subs w) as [Hauth Hsubs].
  { destruct (Incoming (requestStream_rw stream)) as [req|err] eqn:Hin.
    - pose proof (HandleRequest_run hd stream req w Hin) as Hrun.
      cbv zeta in Hrun. unfold exec. rewrite Hrun.
      by destruct (PutErr _ _ _).
    - unfold exec.
      by rewrite (HandleRequest_decode_failure_run hd stream err w Hin). }
  split; [exact Hauth|]. split; [exact Hsubs|].
  split.
  { intros q voucher k sel. unfold eval, ValidatePull. cbn. by rewrite Hauth. }
  unfold exec, Dispatch, mbind, M_bind, makeChan, SubscribeToEvents.
  rewrite selectProviders_spec.
  case_bool_decide; [done|].
  rewrite forEach_Authorize.
  match goal with |- context [sendAllRequests s r ?ps ?w1] =>
    destruct (sendAllRequests_spec s r ps w1) as (effs & Hrun & _) end.
  rewrite Hrun. done.
Qed.

(** ** Construction and inbound streams *)

Lemma New_log (h0 : Host) (dt0 : Manager) (ds : Store)
    (regions0 : list Regions.Region) (w : World) :
  ∃ w1,
    New h0 dt0 ds regions0 w
    = ({| h := h0; dt := dt0; net := NewNetwork h0 regions0;
          store := ds; regions := regions0 |}, w1)
    ∧ log w1 = log w
        ++ [ERegisterVoucherType "DispatchRequestVoucher";
            ERegisterTransportConfigurer "DispatchRequestVoucher"]
        ++ (ESetStreamHandler <$> protoRegions RequestProtocol regions0)
        ++ [ESubscribe (nextSub w)]
    ∧ auth w1 = ∅ ∧ index w1 = index w.
Proof.
  unfold New, SetDelegate, mbind, M_bind, SubscribeToEvents.
  unfold emit at 1 2. cbv beta iota zeta.
  rewrite forEach_emit. unfold mret, M_ret.
  eexists. split; [reflexivity|]. cbn.
  split; [|done]. by rewrite <-!(assoc_L (++)).
Qed.

(** X12.  [New] registers the voucher type and the transport configurer
    under "DispatchRequestVoucher", installs one stream handler per
    region protocol, in region order, and subscribes to the transport
    last.  It starts from an empty authorization table, so that every
    pull is refused with "unknown CID" until something is dispatched,
    while the records already in the index stay. *)
Theorem New_effects (h0 : Host) (dt0 : Manager) (ds : Store)
    (regions0 : list Regions.Region) (w : World) :
  let w' := exec (New h0 dt0 ds regions0) w in
  effects (New h0 dt0 ds regions0) w
  = [ERegisterVoucherType "DispatchRequestVoucher";
     ERegisterTransportConfigurer "DispatchRequestVoucher"]
      ++ (ESetStreamHandler <$> protoRegions RequestProtocol regions0)
      ++ [ESubscribe (nextSub w)]
  ∧ protocols (net (eval (New h0 dt0 ds regions0) w))
    = protoRegions RequestProtocol regions0
  ∧ (∀ q voucher k sel,
       eval (ValidatePull q voucher k sel) w' = Some (Errorf "unknown CID"))
  ∧ index w' = index w.
Proof.
  intros w'.
  destruct (New_log h0 dt0 ds regions0 w) as (w1 & Hrun & Hlog & Hauth & Hidx).
  split; [by eapply effects_eq|].
  split; [unfold eval; by rewrite Hrun|].
  unfold w', exec. rewrite Hrun. cbn [snd]. split; [|done].
  intros q voucher k sel. unfold eval, ValidatePull. cbn [fst].
  unfold Validator.ValidatePull. by rewrite Hauth, lookup_empty.
Qed.



(** X14.  Two requests accepted one after the other are given different
    store identifiers.  Afterwards the index answers the later
    identifier for the CID of the second request; the CID of the first
    request still answers the earlier identifier when the two CIDs
    differ, and has been overwritten when they are the same. *)
Theorem HandleRequest_twice (hd : handler) (st1 st2 : requestStream)
    (req1 req2 : Request) (s : Supply) (w : World) :
  Incoming (requestStream_rw st1) = inl req1 →
  Incoming (requestStream_rw st2) = inl req2 →
  (∀ l k, PutErr (handler_s hd) l k = None) →
  let id1 := (nextID w + 1) mod 2 ^ 64 in
  let id2 := (id1 + 1) mod 2 ^ 64 in
  let w2 := exec (HandleRequest hd st2) (exec (HandleRequest hd st1) w) in
  id1 ≠ id2
  ∧ eval (GetStoreID s (PayloadCID req2)) w2 = (id2, None)
  ∧ (PayloadCID req1 ≠ PayloadCID req2 →
     eval (GetStoreID s (PayloadCID req1)) w2 = (id1, None)).
Proof.
  intros Hin1 Hin2 Hput id1 id2 w2.
  pose proof (Z.mod_pos_bound (nextID w + 1) (2 ^ 64) ltac:(lia)) as Hid1.
  fold id1 in Hid1.
  pose proof (Z.mod_pos_bound (id1 + 1) (2 ^ 64) ltac:(lia)) as Hid2.
  fold id2 in Hid2.
  assert (id1 ≠ id2) as Hne.
  { unfold id2. destruct (decide (id1 + 1 < 2 ^ 64)) as [Hlt|Hge].
    - rewrite Z.mod_small by lia. lia.
    - assert (id1 + 1 = 2 ^ 64) as -> by lia.
      rewrite Z.mod_same by lia. lia. }
  split; [exact Hne|].
  pose proof (HandleRequest_run hd st1 req1 w Hin1) as Hrun1.
  cbv zeta in Hrun1. rewrite Hput in Hrun1. fold id1 in Hrun1.
  set (w1 := exec (HandleRequest hd st1) w) in *.
  assert (nextID w1 = id1
          ∧ index w1
            = <[PayloadCID req1 :=
                  {| Labels := <[KStoreID := Sprintf_d id1]>
                                 (<[KSize := Sprintf_d (Size req1)]> ∅) |}]>
                (index w)) as [Hnext1 Hidx1].
  { unfold w1, exec. by rewrite Hrun1. }
  pose proof (HandleRequest_run hd st2 req2 w1 Hin2) as Hrun2.
  cbv zeta in Hrun2. rewrite Hput, Hnext1 in Hrun2. fold id2 in Hrun2.
  assert (index w2
          = <[PayloadCID req2 :=
                {| Labels := <[KStoreID := Sprintf_d id2]>
                               (<[KSize := Sprintf_d (Size req2)]> ∅) |}]>
              (index w1)) as Hidx2.
  { unfold w2, exec. by rewrite Hrun2. }
  split.
  - unfold eval. rewrite GetStoreID_run. cbn [fst].
    rewrite Hidx2, lookup_insert_eq. cbn [Labels]. rewrite lookup_insert_eq.
    rewrite ParseUint_Sprintf_d; [done|]. unfold MaxUint64. lia.
  - intros Hcid. unfold eval. rewrite GetStoreID_run. cbn [fst].
    rewrite Hidx2, lookup_insert_ne by done.
    rewrite Hidx1, lookup_insert_eq. cbn [Labels]. rewrite lookup_insert_eq.
    rewrite ParseUint_Sprintf_d; [done|]. unfold MaxUint64. lia.
Qed.

Lemma HandleRequest_twice_witness :
  eval (GetStoreID doubledSupply "Q")
       (exec (HandleRequest goodHandler (requestFrom "S" requestQ))
          (exec (HandleRequest goodHandler (requestFrom "R" requestQ))
             emptyWorld))
  = (2, None).
Proof.
  pose proof (HandleRequest_twice goodHandler (requestFrom "R" requestQ)
                (requestFrom "S" requestQ) requestQ requestQ doubledSupply
                emptyWorld eq_refl eq_refl (λ _ _, eq_refl))
    as (_ & Hsecond & _).
  exact Hsecond.
Defined.

(** ** Stores of the multi-store *)

Lemma GetStoreID_pure (s : Supply) (id : Cid) (w : World) :
  GetStoreID s id w = (eval (GetStoreID s id) w, w).
Proof. unfold eval. by rewrite GetStoreID_run. Qed.

Lemma liftM_GetStoreID (s : Supply) (id : Cid) (n : Node) :
  liftM (GetStoreID s id) n = (eval (GetStoreID s id) (world n), n).
Proof. unfold liftM. rewrite GetStoreID_pure. by destruct n. Qed.

(** X15.  [RemoveContent] gives up with the error of [GetStoreID] before
    touching the multi-store, and with the error of the multi-store
    before touching the index, so that a store that could not be dropped
    keeps its index record.  When the store is dropped the record is
    removed: the CID is then unknown to [GetStoreID], and removing it
    again fails with that error without another call to the
    multi-store. *)
Theorem RemoveContent_cases (s : Supply) (ms : MultiStore) (root : Cid)
    (n : Node) (storeID : Z) :
  (∀ e, eval (GetStoreID s root) (world n) = (0, Some e) →
        RemoveContent s ms root n = (Some e, n))
  ∧ (∀ e, eval (GetStoreID s root) (world n) = (storeID, None) →
          DeleteErr ms (calls n) storeID = Some e →
          RemoveContent s ms root n
          = (Some e, {| world := world n;
                        calls := calls n ++ [CallDelete storeID (Some e)] |}))
  ∧ (eval (GetStoreID s root) (world n) = (storeID, None) →
     DeleteErr ms (calls n) storeID = None →
     let n' := (RemoveContent s ms root n).2 in
     (RemoveContent s ms root n).1 = None
     ∧ calls n' = calls n ++ [CallDelete storeID None]
     ∧ index (world n') = delete root (index (world n))
     ∧ eval (GetStoreID s root) (world n') = (0, Some ErrNotFound)
     ∧ RemoveContent s ms root n' = (Some ErrNotFound, n')).
Proof.
  assert (∀ m e, eval (GetStoreID s root) (world m) = (0, Some e) →
                 RemoveContent s ms root m = (Some e, m)) as Hfail.
  { intros m e Hid. unfold RemoveContent, mbind, NodeM_bind.
    by rewrite liftM_GetStoreID, Hid. }
  split; [apply Hfail|].
  split.
  - intros e Hid Hdel. unfold RemoveContent, mbind, NodeM_bind.
    rewrite liftM_GetStoreID, Hid. unfold ms_Delete. by rewrite Hdel.
  - intros Hid Hdel n'.
    assert (RemoveContent s ms root n
            = (None,
               {| world := set_log (λ l, l ++ [ERemoveRecord root])
                             (set_index (delete root) (world n));
                  calls := calls n ++ [CallDelete storeID None] |})) as Hrun.
    { unfold RemoveContent, mbind, NodeM_bind.
      rewrite liftM_GetStoreID, Hid. unfold ms_Delete. by rewrite Hdel. }
    unfold n'. rewrite Hrun. cbn [fst snd world calls].
    assert (eval (GetStoreID s root)
              (set_log (λ l, l ++ [ERemoveRecord root])
                 (set_index (delete root) (world n)))
            = (0, Some ErrNotFound)) as Hgone.
    { unfold eval. rewrite GetStoreID_run. cbn. by rewrite lookup_delete_eq. }
    repeat split; try done.
    by apply Hfail.
Qed.

Lemma RemoveContent_cases_witness :
  RemoveContent doubledSupply quietMultiStore "Q" (nodeOf emptyWorld)
  = (Some ErrNotFound, nodeOf emptyWorld)
  ∧ (RemoveContent doubledSupply stuckMultiStore "Q"
       (nodeOf (exec (Register doubledSupply "Q" 7) emptyWorld))).1
    = Some (ErrExternal "store busy")
  ∧ is_Some (index (world (RemoveContent doubledSupply stuckMultiStore "Q"
                             (nodeOf (exec (Register doubledSupply "Q" 7)
                                        emptyWorld))).2) !! "Q")
  ∧ index (world (RemoveContent doubledSupply quietMultiStore "Q"
                    (nodeOf (exec (Register doubledSupply "Q" 7)
                               emptyWorld))).2) !! "Q" = None.
Proof.
  pose proof (RemoveContent_cases doubledSupply quietMultiStore "Q"
                (nodeOf emptyWorld) 0) as (Hmissing & _ & _).
  pose proof (RemoveContent_cases doubledSupply stuckMultiStore "Q"
                (nodeOf (exec (Register doubledSupply "Q" 7) emptyWorld)) 7)
    as (_ & Hstuck & _).
  pose proof (RemoveContent_cases doubledSupply quietMultiStore "Q"
                (nodeOf (exec (Register doubledSupply "Q" 7) emptyWorld)) 7)
    as (_ & _ & Hdropped).
  split; [exact (Hmissing ErrNotFound eq_refl)|].
  rewrite (Hstuck (ErrExternal "store busy") eq_refl eq_refl).
  split; [reflexivity|]. split; [vm_compute; eauto|].
  destruct (Hdropped eq_refl eq_refl) as (_ & _ & Hidx & _).
  rewrite Hidx. apply lookup_delete_eq.
Defined.

Lemma GetStore_run (s : Supply) (ms : MultiStore) (id : Cid) (n : Node) :
  GetStore s ms id n
  = match eval (GetStoreID s id) (world n) with
    | (_, Some e) => (inr e, n)
    | (storeID, None) =>
        (match GetErr ms (calls n) storeID with
         | Some e => inr e
         | None => inl {| msStoreID := storeID |}
         end,
         {| world := world n;
            calls := calls n ++ [CallGet storeID
                                   (GetErr ms (calls n) storeID)] |})
    end.
Proof.
  unfold GetStore, mbind, NodeM_bind. rewrite liftM_GetStoreID.
  destruct (eval (GetStoreID s id) (world n)) as [storeID [e|]]; [done|].
  unfold ms_Get. by destruct (GetErr ms (calls n) storeID).
Qed.

(** X16.  [GetStore] asks the multi-store only for the identifier that
    [GetStoreID] found; when [GetStoreID] fails it returns that error
    without a call to the multi-store.  It never changes the index. *)
Theorem GetStore_cases (s : Supply) (ms : MultiStore) (id : Cid) (n : Node)
    (storeID : Z) :
  (∀ e, eval (GetStoreID s id) (world n) = (0, Some e) →
        GetStore s ms id n = (inr e, n))
  ∧ (eval (GetStoreID s id) (world n) = (storeID, None) →
     calls (GetStore s ms id n).2
     = calls n ++ [CallGet storeID (GetErr ms (calls n) storeID)]
     ∧ (GetStore s ms id n).1
       = match GetErr ms (calls n) storeID with
         | Some e => inr e
         | None => inl {| msStoreID := storeID |}
         end)
  ∧ world (GetStore s ms id n).2 = world n.
Proof.
  rewrite GetStore_run.
  split; [by intros e ->|].
  split; [by intros ->|].
  by destruct (eval (GetStoreID s id) (world n)) as [? [?|]].
Qed.

Lemma GetStore_cases_witness :
  GetStore doubledSupply quietMultiStore "Q" (nodeOf emptyWorld)
  = (inr ErrNotFound, nodeOf emptyWorld)
  ∧ (GetStore doubledSupply stuckMultiStore "Q"
       (nodeOf (exec (Register doubledSupply "Q" 7) emptyWorld))).1
    = inr (ErrExternal "store not open").
Proof.
  pose proof (GetStore_cases doubledSupply quietMultiStore "Q"
                (nodeOf emptyWorld) 0) as (Hmissing & _).
  pose proof (GetStore_cases doubledSupply stuckMultiStore "Q"
                (nodeOf (exec (Register doubledSupply "Q" 7) emptyWorld)) 7)
    as (_ & Hfound & _).
  split; [exact (Hmissing ErrNotFound eq_refl)|].
  exact (proj2 (Hfound eq_refl)).
Defined.

(** ** The transport configurer *)

(** X17.  The transport configurer does nothing at all for a voucher
    that is not a [Request], and nothing at all for a transport that
    cannot be given a store, whatever the index holds.  Otherwise it
    resolves the store of the voucher's CID: when that fails it prints
    the error and does not call [UseStore]; when it succeeds it calls
    [UseStore] once, for this channel and the store whose identifier the
    index holds, and prints the error of that call if there is one.  It
    never changes the world of the node. *)
Theorem TransportConfigurer_cases (s : Supply) (ms : MultiStore)
    (channelID : ChannelID) (request : Request) (n : Node) (storeID : Z)
    (use : list NodeCall → ChannelID → Z → option error) :
  (∀ ty transport,
     TransportConfigurer s ms channelID (Validator.VoucherOther ty) transport n
     = (tt, n))
  ∧ TransportConfigurer s ms channelID (Validator.VoucherRequest request)
      {| UseStoreErr := None |} n
    = (tt, n)
  ∧ (∀ e, eval (GetStoreID s (PayloadCID request)) (world n) = (0, Some e) →
          TransportConfigurer s ms channelID (Validator.VoucherRequest request)
            {| UseStoreErr := Some use |} n
          = (tt, {| world := world n;
                    calls := calls n
                      ++ [CallPrintln "attempting to configure data store:" e]
                 |}))
  ∧ (∀ e, eval (GetStoreID s (PayloadCID request)) (world n) = (storeID, None) →
          GetErr ms (calls n) storeID = Some e →
          TransportConfigurer s ms channelID (Validator.VoucherRequest request)
            {| UseStoreErr := Some use |} n
          = (tt, {| world := world n;
                    calls := calls n
                      ++ [CallGet storeID (Some e);
                          CallPrintln "attempting to configure data store:" e]
                 |}))
  ∧ (eval (GetStoreID s (PayloadCID request)) (world n) = (storeID, None) →
     GetErr ms (calls n) storeID = None →
     let uerr := use (calls n ++ [CallGet storeID None]) channelID storeID in
     TransportConfigurer s ms channelID (Validator.VoucherRequest request)
       {| UseStoreErr := Some use |} n
     = (tt, {| world := world n;
               calls := calls n
                 ++ [CallGet storeID None;
                     CallUseStore channelID storeID uerr]
                 ++ match uerr with
                    | Some e =>
                        [CallPrintln "attempting to configure data store:" e]
                    | None => []
                    end |})).
Proof.
  split; [done|]. split; [done|].
  unfold TransportConfigurer, mbind, NodeM_bind. cbn [UseStoreErr].
  rewrite GetStore_run.
  split; [|split].
  - intros e ->. done.
  - intros e -> ->. unfold warn, call. cbn. by rewrite <-(assoc_L (++)).
  - intros -> ->. unfold UseStore. cbn [calls world msStoreID].
    destruct (use _ _ _) as [e|]; unfold warn, call, mret, NodeM_ret; cbn;
      by rewrite <-!(assoc_L (++)).
Qed.

Lemma TransportConfigurer_cases_witness :
  TransportConfigurer doubledSupply quietMultiStore channelQ
    (Validator.VoucherRequest requestQ) graphsyncTransport (nodeOf emptyWorld)
  = (tt, {| world := emptyWorld;
            calls := [CallPrintln "attempting to configure data store:"
                        ErrNotFound] |})
  ∧ (TransportConfigurer doubledSupply stuckMultiStore channelQ
       (Validator.VoucherRequest requestQ) graphsyncTransport
       (nodeOf (exec (Register doubledSupply "Q" 7) emptyWorld))).2
    = {| world := exec (Register doubledSupply "Q" 7) emptyWorld;
         calls := [CallGet 7 (Some (ErrExternal "store not open"));
                   CallPrintln "attempting to configure data store:"
                     (ErrExternal "store not open")] |}
  ∧ calls (TransportConfigurer doubledSupply quietMultiStore channelQ
             (Validator.VoucherRequest requestQ) graphsyncTransport
             (nodeOf (exec (Register doubledSupply "Q" 7) emptyWorld))).2
    = [CallGet 7 None; CallUseStore channelQ 7 None].
Proof.
  pose proof (TransportConfigurer_cases doubledSupply quietMultiStore channelQ
                requestQ (nodeOf emptyWorld) 0 (λ _ _ _, None))
    as (_ & _ & Hmissing & _).
  pose proof (TransportConfigurer_cases doubledSupply stuckMultiStore channelQ
                requestQ
                (nodeOf (exec (Register doubledSupply "Q" 7) emptyWorld)) 7
                (λ _ _ _, None))
    as (_ & _ & _ & Hstuck & _).
  pose proof (TransportConfigurer_cases doubledSupply quietMultiStore channelQ
                requestQ
                (nodeOf (exec (Register doubledSupply "Q" 7) emptyWorld)) 7
                (λ _ _ _, None))
    as (_ & _ & _ & _ & Hrouted).
  split; [exact (Hmissing ErrNotFound eq_refl)|].
  split.
  - unfold graphsyncTransport.
    by rewrite (Hstuck (ErrExternal "store not open") eq_refl eq_refl).
  - unfold graphsyncTransport. by rewrite (Hrouted eq_refl eq_refl).
Defined.

(** X18.  The store identifier taken when a request arrives is the one
    the transfer is routed to: after [HandleRequest] has indexed the
    request, the transport configurer, called for a channel whose
    voucher is that request, asks the multi-store for that identifier
    and gives that store to the transport. *)
Theorem HandleRequest_then_TransportConfigurer (hd : handler)
    (stream : requestStream) (req : Request) (w : World) (s : Supply)
    (ms : MultiStore) (channelID : ChannelID) (c : list NodeCall)
    (use : list NodeCall → ChannelID → Z → option error) :
  let storeID := (nextID w + 1) mod 2 ^ 64 in
  Incoming (requestStream_rw stream) = inl req →
  PutErr (handler_s hd)
    (log w ++ [EReadRequest (OtherPeer stream); ENext storeID])
    (PayloadCID req) = None →
  GetErr ms c storeID = None →
  let n := {| world := exec (HandleRequest hd stream) w; calls := c |} in
  let uerr := use (c ++ [CallGet storeID None]) channelID storeID in
  TransportConfigurer s ms channelID (Validator.VoucherRequest req)
    {| UseStoreErr := Some use |} n
  = (tt, {| world := world n;
            calls := c ++ [CallGet storeID None;
                           CallUseStore channelID storeID uerr]
                       ++ match uerr with
                          | Some e =>
                              [CallPrintln "attempting to configure data store:"
                                 e]
                          | None => []
                          end |}).
Proof.
  intros storeID Hin Hput Hget n uerr.
  pose proof (HandleRequest_run hd stream req w Hin) as Hrun.
  cbv zeta in Hrun. fold storeID in Hrun. rewrite Hput in Hrun.
  assert (eval (GetStoreID s (PayloadCID req)) (world n) = (storeID, None))
    as Hid.
  { unfold eval. rewrite GetStoreID_run. cbn [fst world n].
    unfold exec. rewrite Hrun. cbn [snd index set_log set_index].
    rewrite lookup_insert_eq. cbn [Labels]. rewrite lookup_insert_eq.
    rewrite ParseUint_Sprintf_d; [done|].
    pose proof (Z.mod_pos_bound (nextID w + 1) (2 ^ 64) ltac:(lia)).
    unfold storeID, MaxUint64. lia. }
  unfold TransportConfigurer, mbind, NodeM_bind. cbn [UseStoreErr].
  rewrite GetStore_run, Hid. cbn [calls n]. rewrite Hget.
  unfold UseStore. cbn [calls world msStoreID]. fold uerr.
  destruct uerr as [e|]; unfold warn, call, mret, NodeM_ret; cbn;
    by rewrite <-!(assoc_L (++)).
Qed.

Lemma HandleRequest_then_TransportConfigurer_witness :
  calls (TransportConfigurer doubledSupply quietMultiStore channelQ
           (Validator.VoucherRequest requestQ) graphsyncTransport
           (nodeOf (exec (HandleRequest goodHandler (requestFrom "R" requestQ))
                      emptyWorld))).2
  = [CallGet 1 None; CallUseStore channelQ 1 None].
Proof.
  unfold graphsyncTransport, nodeOf.
  by rewrite (HandleRequest_then_TransportConfigurer goodHandler
                (requestFrom "R" requestQ) requestQ emptyWorld doubledSupply
                quietMultiStore channelQ [] (λ _ _ _, None)
                eq_refl eq_refl eq_refl).
Defined.

(** ** Closing a response *)

Lemma filter_registered (l : list (nat * Subscriber)) (id : nat)
    (sub : Subscriber) :
  Forall (λ s, (s.1 < id)%nat) l →
  filter (λ s, s.1 ≠ id) (l ++ [(id, sub)]) = l.
Proof.
  intros Hl. rewrite filter_app, filter_cons. cbn [fst].
  rewrite decide_False by (intros Hne; by apply Hne).
  cbn. rewrite app_nil_r.
  induction Hl as [|s l Hs _ IH]; [done|].
  rewrite filter_cons, decide_True by lia. by rewrite IH.
Qed.

(** X19.  Closing the response of a [Dispatch] removes the subscription
    that this dispatch added and no other, and closes its channel; after
    that no published event sends a record on the closed channel.  The
    authorizations the dispatch wrote are not revoked. *)
Theorem Response_Close_after_Dispatch (s : Supply) (r : Request) (w : World)
    (c : list NodeCall) :
  subsRegistered w → channelsMade w →
  let res := (eval (Dispatch s r) w).1 in
  let w1 := exec (Dispatch s r) w in
  let n' := (Response_Close res {| world := w1; calls := c |}).2 in
  subs (world n') = subs w
  ∧ calls n' = c ++ [CallCloseChan (recordChan res)]
  ∧ auth (world n') = auth w1
  ∧ index (world n') = index w1
  ∧ ∀ event chState,
      recordsSent (recordChan res)
        (effects (publish event chState) (world n')) = [].
Proof.
  intros Hreg Hmade res w1 n'.
  destruct (Dispatch_run s r w)
    as (sent & w' & Hrun & _ & _ & _ & _ & _ & _ & Hsubs & _).
  assert (res = {| recordChan := nextChan w; unsub := nextSub w;
                   Count := Z.of_nat (length (take MaxReceiverCount
                                                (eligiblePeers s))) |})
    as Hres by (unfold res, eval; by rewrite Hrun).
  assert (w1 = w') as Hw1 by (unfold w1, exec; by rewrite Hrun).
  assert (subs (world n') = subs w) as Hback.
  { unfold n', Response_Close, mbind, NodeM_bind, liftM, Unsubscribe, call.
    cbn. rewrite Hres, Hw1, Hsubs. cbn [unsub].
    by apply filter_registered. }
  split; [exact Hback|].
  split; [unfold n'; by rewrite Hres|].
  split; [done|]. split; [done|].
  intros event chState.
  destruct (publish_run (recordChan res) event chState (world n'))
    as (-> & _).
  rewrite Hback, Hres. cbn [recordChan].
  by apply (sentBy_older r).
Qed.

Lemma Response_Close_after_Dispatch_witness :
  subsRegistered emptyWorld ∧ channelsMade emptyWorld
  ∧ subs (world (Response_Close (eval (Dispatch doubledSupply requestQ)
                                   emptyWorld).1
                   (nodeOf (exec (Dispatch doubledSupply requestQ) emptyWorld))).2)
    = []
  ∧ recordsSent 0
      (effects (publish completeEvent
                  (channelOf datatransfer.Completed "Q" "A" "B"))
         (world (Response_Close (eval (Dispatch doubledSupply requestQ)
                                   emptyWorld).1
                   (nodeOf (exec (Dispatch doubledSupply requestQ)
                              emptyWorld))).2))
    = [].
Proof.
  assert (subsRegistered emptyWorld) as Hreg by constructor.
  assert (channelsMade emptyWorld) as Hmade by constructor.
  destruct (Response_Close_after_Dispatch doubledSupply requestQ emptyWorld []
              Hreg Hmade) as (Hsubs & _ & _ & _ & Hquiet).
  split; [exact Hreg|]. split; [exact Hmade|].
  split; [exact Hsubs|].
  exact (Hquiet completeEvent (channelOf datatransfer.Completed "Q" "A" "B")).
Defined.

(** ** What a caller of [Dispatch] can read off the result *)

(** X20.  The only error [Dispatch] ever returns is [ErrNoPeers]: no
    failure of a stream or of a write reaches the caller.  [Count] is
    the number of connections that qualify, capped at
    [MaxReceiverCount]; it is zero exactly when the error is returned
    and at least one otherwise. *)
Theorem Dispatch_Count (s : Supply) (r : Request) (w : World) :
  let res := (eval (Dispatch s r) w).1 in
  let err := (eval (Dispatch s r) w).2 in
  Count res = Z.of_nat (MaxReceiverCount `min` length (eligiblePeers s))
  ∧ (∀ e, err = Some e → e = ErrNoPeers)
  ∧ (err = Some ErrNoPeers ↔ Count res = 0)
  ∧ (err = None ↔ 1 <= Count res).
Proof.
  intros res err.
  destruct (Dispatch_effects s r w) as (Hres & _).
  unfold res, err. rewrite Hres. cbn [fst snd Count].
  rewrite length_take.
  destruct (eligiblePeers s) as [|p0 ps]; cbn [length].
  - rewrite Nat.min_0_r. cbn. repeat split; try done.
    by intros e [= <-].
  - rewrite bool_decide_false by done.
    unfold MaxReceiverCount. repeat split; try done; lia.
Qed.

Lemma Dispatch_Count_witness :
  (eval (Dispatch mismatchedSupply requestQ) emptyWorld).2 = Some ErrNoPeers
  ∧ Count (eval (Dispatch mismatchedSupply requestQ) emptyWorld).1 = 0
  ∧ (eval (Dispatch flakySupply requestQ) emptyWorld).2 = None.
Proof.
  pose proof (Dispatch_Count mismatchedSupply requestQ emptyWorld)
    as (_ & Honly & Hzero & _).
  pose proof (Dispatch_Count flakySupply requestQ emptyWorld)
    as (_ & _ & _ & Hsome).
  assert ((eval (Dispatch mismatchedSupply requestQ) emptyWorld).2
          = Some ErrNoPeers) as Herr.
  { destruct (eval (Dispatch mismatchedSupply requestQ) emptyWorld).2
      as [e|] eqn:He; [|discriminate He].
    by rewrite (Honly e eq_refl). }
  split; [exact Herr|]. split; [exact (proj1 Hzero Herr)|].
  apply Hsome. by vm_compute.
Defined.

(** ** One list of protocols *)

Lemma streamProtocols_app (e1 e2 : list Effect) :
  streamProtocols (e1 ++ e2) = streamProtocols e1 ++ streamProtocols e2.
Proof. apply omap_app. Qed.

Lemma streamProtocols_Authorize (k : Cid) (peers : list PeerID) :
  streamProtocols (EAuthorize k <$> peers) = [].
Proof. by induction peers. Qed.

Lemma streamProtocols_sessions (protos : list string) (r : Request)
    (peers : list PeerID) (sessions : list (list Effect)) :
  Forall2 (streamSession protos r) peers sessions →
  streamProtocols (concat sessions) = replicate (length peers) protos.
Proof.
  induction 1 as [|p0 session peers sessions Hs _ IH]; [done|].
  cbn [concat length replicate]. rewrite streamProtocols_app, IH.
  by destruct Hs as [[e ->]|[werr ->]].
Qed.

Lemma handlersInstalled_app (e1 e2 : list Effect) :
  handlersInstalled (e1 ++ e2) = handlersInstalled e1 ++ handlersInstalled e2.
Proof. apply omap_app. Qed.

Lemma handlersInstalled_SetStreamHandler (protos : list string) :
  handlersInstalled (ESetStreamHandler <$> protos) = protos.
Proof. induction protos as [|proto protos IH]; [done|]. cbn. by f_equal. Qed.

(** X21.  A node built by [New] uses one list of protocol identifiers
    throughout: the protocols for which it installs a stream handler are
    the protocols of its regions, and every stream a later [Dispatch]
    requests, one per selected peer, is negotiated with exactly that
    list. *)
Theorem New_then_Dispatch_protocols (h0 : Host) (dt0 : Manager) (ds : Store)
    (regions0 : list Regions.Region) (r : Request) (w w' : World) :
  let s := eval (New h0 dt0 ds regions0) w in
  handlersInstalled (effects (New h0 dt0 ds regions0) w)
  = protoRegions RequestProtocol regions0
  ∧ streamProtocols (effects (Dispatch s r) w')
    = replicate (length (selectProviders s).1)
        (protoRegions RequestProtocol regions0).
Proof.
  intros s.
  destruct (New_log h0 dt0 ds regions0 w) as (w1 & Hrun & Hlog & _).
  assert (s = {| h := h0; dt := dt0; net := NewNetwork h0 regions0;
                 store := ds; regions := regions0 |}) as Hs.
  { unfold s, eval. by rewrite Hrun. }
  split.
  - rewrite (effects_eq _ _ _ _ _ Hrun Hlog).
    rewrite !handlersInstalled_app, handlersInstalled_SetStreamHandler.
    cbn. by rewrite app_nil_r.
  - destruct (Dispatch_sessions s r w') as (sessions & -> & Hsessions).
    rewrite !streamProtocols_app, streamProtocols_Authorize.
    rewrite (streamProtocols_sessions _ _ _ _ Hsessions). cbn.
    by rewrite Hs.
Qed.

(** ** The authorization table only grows *)

(** X22.  [Authorize] only adds: whatever was allowed before is allowed
    after, and the one pull that becomes allowed is the pull of [k] by
    [p].  Authorizing the same peer again changes nothing, and the order
    of two authorizations does not matter. *)
Theorem Authorize_additive (auth : gmap Cid (gset PeerID)) (k k' : Cid)
    (p p' q : PeerID) (voucher : Validator.Voucher) (sel : Selector) :
  (Validator.ValidatePull q voucher k' sel (Validator.Authorize k p auth) = None
   ↔ Validator.ValidatePull q voucher k' sel auth = None ∨ (k' = k ∧ q = p))
  ∧ Validator.Authorize k p (Validator.Authorize k p auth)
    = Validator.Authorize k p auth
  ∧ Validator.Authorize k p (Validator.Authorize k' p' auth)
    = Validator.Authorize k' p' (Validator.Authorize k p auth).
Proof.
  split; [|split].
  - rewrite !ValidatePull_allows_iff.
    change (Validator.Authorize k p auth) with (authorizeAll [(k, p)] auth).
    rewrite authorizeAll_allows, list_elem_of_singleton. naive_solver.
  - apply map_eq. intros k0. rewrite !Authorize_lookup.
    destruct (decide (k = k0)) as [->|]; [|done].
    rewrite decide_True by done. cbn. f_equal.
    generalize (default ∅ (auth !! k0)). clear. intros granted. set_solver.
  - apply map_eq. intros k0. rewrite !Authorize_lookup.
    destruct (decide (k = k0)) as [->|]; destruct (decide (k' = k0)) as [->|];
      cbn; try done.
    + rewrite decide_True by done. cbn. f_equal.
      generalize (default ∅ (auth !! k0)). clear. intros granted. set_solver.
    + by rewrite decide_False.
Qed.
